(** * vapor: Steam and ProtonDB API helper functions

    A shallow embedding of [src/vapor/api_interface.py] and the properties
    of its rating-resolution batch.

    Coroutines ([async def]) are embedded as finite resumption trees
    ([coro]): a node is a point where the coroutine hands control to the
    event loop (a network request, the semaphore) or touches the cache file,
    a leaf is its [return] or the exception it raises.  One tree serves the
    sequential reading of a function ([replay]) and the interleaved one of a
    batch ([exec]). *)

From Stdlib Require Import ZArith QArith Qabs DecimalString DecimalZ.
From stdpp Require Import gmap strings list sorting.

Set Warnings "-register-all".
Local Open Scope string_scope.
Local Open Scope list_scope.
Local Open Scope Z_scope.

(** ** Python values *)

(** What [json.loads] produces, and the dynamically typed values the code
    stores in [Game.rating].  JSON numbers are kept as integers. *)
Inductive json : Type :=
| JNull
| JBool (b : bool)
| JInt (n : Z)
| JStr (s : string)
| JList (l : list json)
| JDict (d : list (string * json)).

(** The exceptions of the model; every one is an [Exception] in Python. *)
Inductive exn : Type :=
| KeyError
| TypeError
| AttributeError
| ValueError
| JSONDecodeError
| ZeroDivisionError
| StopIteration
| RuntimeError
| PrivateAccountError
| ClientError (msg : string).

(** An exception that leaves an [async def]: Python replaces a
    [StopIteration] that leaves a coroutine by a [RuntimeError]
    ("coroutine raised StopIteration", PEP 479); every other exception
    leaves as it is. *)
Definition leaving (e : exn) : exn :=
  match e with
  | StopIteration => RuntimeError
  | _ => e
  end.

Inductive result (A : Type) : Type :=
| Ok (a : A)
| Err (e : exn).
Arguments Ok {A} a.
Arguments Err {A} e.

(** [bool(v)] *)
Definition truthy (v : json) : bool :=
  match v with
  | JNull => false
  | JBool b => b
  | JInt n => negb (n =? 0)
  | JStr s => negb (String.eqb s EmptyString)
  | JList l => match l with [] => false | _ => true end
  | JDict d => match d with [] => false | _ => true end
  end.

Fixpoint assoc {V : Type} (key : string) (d : list (string * V)) : option V :=
  match d with
  | [] => None
  | (k, v) :: d' => if String.eqb k key then Some v else assoc key d'
  end.

Fixpoint is_substring (needle hay : string) : bool :=
  match hay with
  | EmptyString => String.eqb needle EmptyString
  | String _ hay' => String.prefix needle hay || is_substring needle hay'
  end.

(** [key in v] for a [str] key *)
Definition py_contains (key : string) (v : json) : result bool :=
  match v with
  | JDict d => Ok (match assoc key d with Some _ => true | None => false end)
  | JList l =>
      Ok (existsb (fun e => match e with JStr s => String.eqb s key | _ => false end) l)
  | JStr s => Ok (is_substring key s)
  | _ => Err TypeError
  end.

(** [v[key]] for a [str] key *)
Definition py_getitem (v : json) (key : string) : result json :=
  match v with
  | JDict d => match assoc key d with Some x => Ok x | None => Err KeyError end
  | _ => Err TypeError
  end.

(** [v.get(key, default)] *)
Definition py_get (v : json) (key : string) (default : json) : result json :=
  match v with
  | JDict d => Ok (match assoc key d with Some x => x | None => default end)
  | _ => Err AttributeError
  end.

(** A Python string is held as the bytes of its UTF-8 encoding.  A byte
    of the form 10xxxxxx continues a character; every other byte starts
    one. *)
Definition continues (b : Ascii.ascii) : bool :=
  match b with
  | Ascii.Ascii _ _ _ _ _ _ b6 b7 => b7 && negb b6
  end.

(** [len(s)]: the number of characters of the string, not of its bytes. *)
Fixpoint len (s : string) : nat :=
  match s with
  | EmptyString => 0
  | String b s' => ((if continues b then 0 else 1) + len s')%nat
  end.

(** The characters of a string, each with the bytes that continue it. *)
Fixpoint chars (s : string) : list string :=
  match s with
  | EmptyString => []
  | String b s' =>
      match s' with
      | String b' _ =>
          if continues b' then
            match chars s' with
            | c :: cs => String b c :: cs
            | [] => [String b EmptyString]
            end
          else String b EmptyString :: chars s'
      | EmptyString => [String b EmptyString]
      end
  end.

Definition characters (s : string) : list json := JStr <$> chars s.

(** [iter(v)] *)
Definition py_iter (v : json) : result (list json) :=
  match v with
  | JList l => Ok l
  | JDict d => Ok (map (fun kv => JStr (fst kv)) d)
  | JStr s => Ok (characters s)
  | _ => Err TypeError
  end.

(** [str(n)] for an [int] *)
Definition str (n : Z) : string := NilEmpty.string_of_int (Z.to_int n).

#[export] Instance result_mret : MRet result := fun A a => Ok a.
#[export] Instance result_mbind : MBind result := fun A B f r =>
  match r with
  | Ok a => f a
  | Err e => Err e
  end.

(** [list.sort(key=..., reverse=...)]: a stable sort; with [reverse] the
    order is descending and entries of equal key still keep their order. *)
Fixpoint insert_sorted {A : Type} (before : Z -> Z -> bool) (key : A -> Z)
    (x : A) (s : list A) : list A :=
  match s with
  | [] => [x]
  | y :: s' =>
      if before (key y) (key x) then y :: insert_sorted before key x s'
      else x :: s
  end.

Definition list_sort {A : Type} (key : A -> Z) (reverse : bool) (l : list A) : list A :=
  foldr (insert_sorted (if reverse then Z.gtb else Z.ltb) key) [] l.

(** [round(p / q)] on integers [p] and [q >= 0]: true division, then the
    nearest integer, a tie going to the even one.  The source divides in
    floating point: [p / q] is the float nearest to the quotient and
    [round] rounds that float.  For [|p| < 2^52] a quotient that is not
    half-way between two integers is at least [1 / (2 q)] away from it,
    more than the float is from the quotient, so the result is the
    rounding of the exact quotient, which is what the definition computes.
    Beyond this bound the definition does not follow the source, and what
    is stated of the aggregate assumes the bound ([exact_sum]). *)
Definition round_div (p q : Z) : result Z :=
  if q =? 0 then Err ZeroDivisionError else
  let f := p / q in
  let r := p mod q in
  Ok (if 2 * r <? q then f
      else if q <? 2 * r then f + 1
      else if Z.even f then f else f + 1).

Definition sum (l : list Z) : Z := foldr Z.add 0 l.


(** ** Data structures *)

Record Response : Type := { data : string; status : Z }.

Record Game : Type := {
  name : string;
  rating : json;
  playtime : Z;
  app_id : string;
}.

Record SteamUserData : Type := {
  game_ratings : list Game;
  user_average : string;
}.

(** One entry of the owned-games payload ([game['appid']], [game['name']],
    [game['playtime_forever']]). *)
Module raw.
Record game : Type := {
  appid : Z;
  name : string;
  playtime_forever : Z;
}.
End raw.

(** [data['response']], with its optional ['games'] list. *)
Record SteamAPIUserDataResponse : Type := {
  response_games : option (list raw.game);
}.

(** An entry of the anti-cheat list ([AntiCheatData(app_id=..., status=...)]);
    the status is kept as the value of its [AntiCheatStatus] member. *)
Module anticheat.
Record AntiCheatData : Type := {
  app_id : json;
  status : string;
}.
End anticheat.

(** Modelled from the spec: the [Cache] of [vapor.cache_handler], which is
    not among the sources, seen through what the code reads from it (the
    two freshness flags and the lookup of a game, which may raise); what
    the code writes with [update_cache] is a node of the coroutine or an
    event of the batch. *)
Record Cache : Type := {
  has_game_cache : bool;
  has_anticheat_cache : bool;
  get_game_data : string -> result (option Game);
}.

Fixpoint json_eqb (a b : json) {struct a} : bool :=
  match a, b with
  | JNull, JNull => true
  | JBool x, JBool y => Bool.eqb x y
  | JInt x, JInt y => x =? y
  | JStr x, JStr y => String.eqb x y
  | JList x, JList y =>
      (fix all2 (x y : list json) {struct x} : bool :=
         match x, y with
         | [], [] => true
         | a' :: x', b' :: y' => json_eqb a' b' && all2 x' y'
         | _, _ => false
         end) x y
  | JDict x, JDict y =>
      (fix all2 (x y : list (string * json)) {struct x} : bool :=
         match x, y with
         | [], [] => true
         | (k, a') :: x', (k', b') :: y' =>
             String.eqb k k' && json_eqb a' b' && all2 x' y'
         | _, _ => false
         end) x y
  | _, _ => false
  end.

(** [g == g'] on [Game] tuples, field by field. *)
Definition Game_eqb (g g' : Game) : bool :=
  String.eqb (name g) (name g') && json_eqb (rating g) (rating g')
  && (playtime g =? playtime g') && String.eqb (app_id g) (app_id g').

(** [l.remove(x)]: drops the first entry equal to [x]. *)
Fixpoint list_remove (x : Game) (l : list Game) : result (list Game) :=
  match l with
  | [] => Err ValueError
  | y :: l' =>
      if Game_eqb x y then Ok l'
      else l'' ← list_remove x l'; mret (y :: l'')
  end.

(** ** Coroutines *)

(** The keyword argument given to [Cache.update_cache]. *)
Inductive cache_update : Type :=
| Game_list (l : list Game)
| Anti_cheat_list (l : list anticheat.AntiCheatData).

Inductive coro (A : Type) : Type :=
| Ret (a : A)
| Raise (e : exn)
| Await_get (url : string) (k : result Response -> coro A)
| Acquire (k : coro A)
| Release (k : coro A)
| Update_cache (u : cache_update) (k : coro A).
Arguments Ret {A} a.
Arguments Raise {A} e.
Arguments Await_get {A} url k.
Arguments Acquire {A} k.
Arguments Release {A} k.
Arguments Update_cache {A} u k.

Fixpoint coro_bind {A B : Type} (f : A -> coro B) (c : coro A) : coro B :=
  match c with
  | Ret a => f a
  | Raise e => Raise e
  | Await_get url k => Await_get url (fun r => coro_bind f (k r))
  | Acquire k => Acquire (coro_bind f k)
  | Release k => Release (coro_bind f k)
  | Update_cache u k => Update_cache u (coro_bind f k)
  end.

#[export] Instance coro_mret : MRet coro := fun A a => Ret a.
#[export] Instance coro_mbind : MBind coro := fun A B f c => coro_bind f c.

(** [try: c except Exception: h] *)
Fixpoint try_except {A : Type} (c : coro A) (h : exn -> coro A) : coro A :=
  match c with
  | Ret a => Ret a
  | Raise e => h e
  | Await_get url k => Await_get url (fun r => try_except (k r) h)
  | Acquire k => Acquire (try_except k h)
  | Release k => Release (try_except k h)
  | Update_cache u k => Update_cache u (try_except k h)
  end.

(** The exit of [async with semaphore]: the permit is given back on [return]
    and on an exception alike. *)
Fixpoint releasing {A : Type} (c : coro A) : coro A :=
  match c with
  | Ret a => Release (Ret a)
  | Raise e => Release (Raise e)
  | Await_get url k => Await_get url (fun r => releasing (k r))
  | Acquire k => Acquire (releasing k)
  | Release k => Release (releasing k)
  | Update_cache u k => Update_cache u (releasing k)
  end.

(** [async with semaphore: body] *)
Definition async_with_semaphore {A : Type} (body : coro A) : coro A :=
  Acquire (releasing body).

(** A synchronous call that may raise. *)
Definition lift {A : Type} (r : result A) : coro A :=
  match r with
  | Ok a => Ret a
  | Err e => Raise e
  end.

(** [async_get]: one request on the session; the event loop resumes the
    coroutine with the response, or with the exception of the transport. *)
Definition async_get (url : string) : coro Response :=
  Await_get url lift.

(** *** The sequential reading of a coroutine *)

(** [replay c rs]: what [c] returns or raises when its requests are
    answered, in order, by [rs]; [None] when [rs] runs short. *)
Fixpoint replay {A : Type} (c : coro A) (rs : list (result Response))
    : option (result A) :=
  match c with
  | Ret a => Some (Ok a)
  | Raise e => Some (Err e)
  | Await_get _ k =>
      match rs with
      | r :: rs' => replay (k r) rs'
      | [] => None
      end
  | Acquire k | Release k | Update_cache _ k => replay k rs
  end.

(** The requests [c] issues on the way. *)
Fixpoint calls {A : Type} (c : coro A) (rs : list (result Response)) : list string :=
  match c with
  | Ret _ | Raise _ => []
  | Await_get url k =>
      url :: match rs with
             | r :: rs' => calls (k r) rs'
             | [] => []
             end
  | Acquire k | Release k | Update_cache _ k => calls k rs
  end.

(** The cache updates [c] makes on the way. *)
Fixpoint updates {A : Type} (c : coro A) (rs : list (result Response))
    : list cache_update :=
  match c with
  | Ret _ | Raise _ => []
  | Await_get _ k =>
      match rs with
      | r :: rs' => updates (k r) rs'
      | [] => []
      end
  | Acquire k | Release k => updates k rs
  | Update_cache u k => u :: updates k rs
  end.

(** No path of the coroutine ends in an exception. *)
Inductive no_raise {A : Type} : coro A -> Prop :=
| no_raise_ret a : no_raise (Ret a)
| no_raise_get url k : (forall r, no_raise (k r)) -> no_raise (Await_get url k)
| no_raise_acquire k : no_raise k -> no_raise (Acquire k)
| no_raise_release k : no_raise k -> no_raise (Release k)
| no_raise_update u k : no_raise k -> no_raise (Update_cache u k).

(** No path of the coroutine waits for more than [n] requests. *)
Inductive awaits_le {A : Type} : nat -> coro A -> Prop :=
| awaits_ret n a : awaits_le n (Ret a)
| awaits_raise n e : awaits_le n (Raise e)
| awaits_get n url k : (forall r, awaits_le n (k r)) -> awaits_le (S n) (Await_get url k)
| awaits_acquire n k : awaits_le n k -> awaits_le n (Acquire k)
| awaits_release n k : awaits_le n k -> awaits_le n (Release k)
| awaits_update n u k : awaits_le n k -> awaits_le n (Update_cache u k).

(** The coroutine only waits for requests: it touches neither the
    semaphore nor the cache file. *)
Inductive requests_only {A : Type} : coro A -> Prop :=
| requests_only_ret a : requests_only (Ret a)
| requests_only_raise e : requests_only (Raise e)
| requests_only_get url k :
    (forall r, requests_only (k r)) -> requests_only (Await_get url k).

(** [gated h c]: started with [h] permits in hand, every path of [c] takes
    one permit before its first request, waits for answers only with the
    permit in hand, and has given it back when it ends. *)
Inductive gated {A : Type} : nat -> coro A -> Prop :=
| gated_ret a : gated 0 (Ret a)
| gated_raise e : gated 0 (Raise e)
| gated_get url k : (forall r, gated 1 (k r)) -> gated 1 (Await_get url k)
| gated_acquire k : gated 1 k -> gated 0 (Acquire k)
| gated_release k : gated 0 k -> gated 1 (Release k)
| gated_update h u k : gated h k -> gated h (Update_cache u k).

(** How a call stands when the event loop is looked at: it has returned,
    it has raised, or it is still running. *)
Inductive outcome (A : Type) : Type :=
| Returned (a : A)
| Raised (e : exn)
| Running.
Arguments Returned {A} a.
Arguments Raised {A} e.
Arguments Running {A}.

(** The answers that are left once the coroutine has ended. *)
Fixpoint leftover {A : Type} (c : coro A) (rs : list (result Response))
    : list (result Response) :=
  match c with
  | Ret _ | Raise _ => rs
  | Await_get _ k =>
      match rs with
      | r :: rs' => leftover (k r) rs'
      | [] => []
      end
  | Acquire k | Release k | Update_cache _ k => leftover k rs
  end.

(** What a coroutine does to the semaphore. *)
Inductive gate_op : Type :=
| Acquired
| Released.

(** [gate_ops c rs]: the operations of [c] on the semaphore, in order, when
    its requests are answered by [rs]. *)
Fixpoint gate_ops {A : Type} (c : coro A) (rs : list (result Response)) : list gate_op :=
  match c with
  | Ret _ | Raise _ => []
  | Await_get _ k =>
      match rs with
      | r :: rs' => gate_ops (k r) rs'
      | [] => []
      end
  | Acquire k => Acquired :: gate_ops k rs
  | Release k => Released :: gate_ops k rs
  | Update_cache _ k => gate_ops k rs
  end.

(** [UnauthorizedError] and [InvalidIDError] of [vapor.exceptions], which
    only [resolve_vanity_name] and [get_steam_user_data] raise. *)
Inductive vapor_exn : Type :=
| UnauthorizedError
| InvalidIDError.

(** What a call that may raise one of the two gives back: the exception,
    or the value it returns.  The other exceptions stay those of [exn]. *)
Inductive reply (A : Type) : Type :=
| Raises (e : vapor_exn)
| Gives (a : A).
Arguments Raises {A} e.
Arguments Gives {A} a.

(** Every [return] of the coroutine gives a value with the property. *)
Inductive returns {A : Type} (P : A -> Prop) : coro A -> Prop :=
| returns_ret a : P a -> returns P (Ret a)
| returns_raise e : returns P (Raise e)
| returns_get url k : (forall r, returns P (k r)) -> returns P (Await_get url k)
| returns_acquire k : returns P k -> returns P (Acquire k)
| returns_release k : returns P k -> returns P (Release k)
| returns_update u k : returns P k -> returns P (Update_cache u k).

(** The coroutine does not write to the cache. *)
Inductive update_free {A : Type} : coro A -> Prop :=
| update_free_ret a : update_free (Ret a)
| update_free_raise e : update_free (Raise e)
| update_free_get url k : (forall r, update_free (k r)) -> update_free (Await_get url k)
| update_free_acquire k : update_free k -> update_free (Acquire k)
| update_free_release k : update_free k -> update_free (Release k).



(** ** The rating resolver *)

Section Vapor.

(** [json.loads]; [None] is [json.JSONDecodeError]. *)
Variable json_loads : string -> option json.

(** Constants of [vapor.data_structures]. *)
Variable HTTP_SUCCESS : Z.
Variable RATING_DICT : list (string * (Z * string)).
Variable AntiCheatStatus_values : list string.

Definition loads (s : string) : result json :=
  match json_loads s with
  | Some v => Ok v
  | None => Err JSONDecodeError
  end.

Definition appdetails_url (app_id : string) : string :=
  "https://store.steampowered.com/api/appdetails?appids=" +:+ app_id
    +:+ "&filters=platforms".

Definition protondb_url (app_id : string) : string :=
  "https://www.protondb.com/api/v1/reports/summaries/" +:+ app_id +:+ ".json".

Definition check_game_is_native (app_id : string) : coro json :=
  resp ← async_get (appdetails_url app_id);
  if negb (status resp =? HTTP_SUCCESS) then mret (JBool false) else
  json_data ← lift (loads (data resp));
  present ← lift (py_contains app_id json_data);
  if negb present then mret (JBool false) else
  game_data ← lift (py_getitem json_data app_id);
  success ← lift (py_get game_data "success" (JBool false));
  if negb (truthy success) then mret success else
  d ← lift (py_getitem game_data "data");
  platforms ← lift (py_getitem d "platforms");
  lift (py_get platforms "linux" (JBool false)).

Definition get_game_average_rating (app_id : string) (cache : Cache) : coro json :=
  let uncached : coro json :=
    native ← check_game_is_native app_id;
    if truthy native then mret (JStr "native") else
    resp ← async_get (protondb_url app_id);
    if negb (status resp =? HTTP_SUCCESS) then mret (JStr "pending") else
    json_data ← lift (loads (data resp));
    lift (py_get json_data "tier" (JStr "pending"))
  in
  if has_game_cache cache then
    game ← lift (get_game_data cache app_id);
    match game with
    | Some g => mret (rating g)
    | None => uncached
    end
  else uncached.

Definition _fetch_single_game_rating (game : raw.game) (cache : Cache) : coro Game :=
  async_with_semaphore (
    rating ← try_except (get_game_average_rating (str (raw.appid game)) cache)
                        (fun _ => mret (JStr "pending"));
    mret {| name := raw.name game;
            rating := rating;
            playtime := raw.playtime_forever game;
            app_id := str (raw.appid game) |}).

(** ** Anti-cheat refresh *)

Definition anti_cheat_url : string :=
  "https://raw.githubusercontent.com/AreWeAntiCheatYet/AreWeAntiCheatYet/master/games.json".

(** [AntiCheatStatus(v)]: the member of the enumeration whose value is [v]. *)
Definition AntiCheatStatus (v : json) : result string :=
  match v with
  | JStr s =>
      if existsb (String.eqb s) AntiCheatStatus_values then Ok s else Err ValueError
  | _ => Err ValueError
  end.

(** The list comprehension of [get_anti_cheat_data], entry by entry. *)
Fixpoint deserialize (anti_cheat_data : list json)
    : result (list anticheat.AntiCheatData) :=
  match anti_cheat_data with
  | [] => Ok []
  | game :: rest =>
      store_ids ← py_getitem game "storeIds";
      keep ← py_contains "steam" store_ids;
      if (keep : bool) then
        steam ← py_getitem store_ids "steam";
        st ← py_getitem game "status";
        st' ← AntiCheatStatus st;
        rest' ← deserialize rest;
        mret ({| anticheat.app_id := steam; anticheat.status := st' |} :: rest')
      else deserialize rest
  end.

(** [cache] is the handle that [Cache().load_cache()] gives; the handle
    returned after [update_cache] is the same object. *)
Definition get_anti_cheat_data (cache : Cache) : coro (option Cache) :=
  if has_anticheat_cache cache then mret (Some cache) else
  resp ← async_get anti_cheat_url;
  if negb (status resp =? HTTP_SUCCESS) then mret None else
  match json_loads (data resp) with
  | None => mret None
  | Some anti_cheat_data =>
      games ← lift (py_iter anti_cheat_data);
      deserialized_data ← lift (deserialize games);
      Update_cache (Anti_cheat_list deserialized_data) (mret (Some cache))
  end.

(** ** The batch *)

Definition MAX_CONCURRENT_REQUESTS : nat := 20.

(** What the caller and the outside can observe of a batch, in order. *)
Inductive event : Type :=
| On_games_loaded (l : list Game)
| Request (task : nat) (url : string)
| On_game_updated (g : Game)
| Cache_updated (u : cache_update).

(** A task of the batch: what is left of its coroutine, and the permits of
    the semaphore it holds. *)
Record task : Type := {
  code : coro Game;
  held : nat;
}.

Record batch : Type := {
  permits : nat;
  tasks : list task;
  completed : list (result Game);
  consumed : nat;
  ratings_map : gmap string json;
  trace : list event;
  aborted : option exn;
}.

(** What the event loop does next: let a waiting task through the
    semaphore, hand a task the answer to its request, or run one turn of
    the [as_completed] loop. *)
Inductive choice : Type :=
| Start (i : nat)
| Resume (i : nat) (r : result Response)
| Next.

(** Runs a task up to the point where it waits or ends. *)
Fixpoint settle (i : nat) (c : coro Game) (permits held : nat) (tr : list event)
    : coro Game * nat * nat * list event :=
  match c with
  | Release k => settle i k (S permits) (pred held) tr
  | Update_cache u k => settle i k permits held (tr ++ [Cache_updated u])
  | Await_get url _ => (c, permits, held, tr ++ [Request i url])
  | _ => (c, permits, held, tr)
  end.

Definition finished (c : coro Game) : option (result Game) :=
  match c with
  | Ret g => Some (Ok g)
  | Raise e => Some (Err e)
  | _ => None
  end.

Definition advance (i : nat) (c : coro Game) (permits held : nat) (s : batch) : batch :=
  let '(c', permits', held', tr') := settle i c permits held (trace s) in
  {| permits := permits';
     tasks := <[i := {| code := c'; held := held' |}]> (tasks s);
     completed := completed s ++ match finished c' with Some r => [r] | None => [] end;
     consumed := consumed s;
     ratings_map := ratings_map s;
     trace := tr';
     aborted := aborted s |}.

Definition notify {A : Type} (callback : option (A -> result unit)) (ev : A -> event)
    (a : A) : list event * result unit :=
  match callback with
  | Some f => ([ev a], f a)
  | None => ([], Ok ())
  end.

(** One turn of [for coro in asyncio.as_completed(tasks)]. *)
Definition next_completed (on_game_updated : option (Game -> result unit))
    (s : batch) : batch :=
  match completed s with
  | [] => s
  | r :: rest =>
      match r with
      | Err e =>
          {| permits := permits s; tasks := tasks s; completed := rest;
             consumed := S (consumed s); ratings_map := ratings_map s;
             trace := trace s; aborted := Some e |}
      | Ok fetched_game =>
          let '(evs, r') := notify on_game_updated On_game_updated fetched_game in
          {| permits := permits s; tasks := tasks s; completed := rest;
             consumed := S (consumed s);
             ratings_map := <[app_id fetched_game := rating fetched_game]> (ratings_map s);
             trace := trace s ++ evs;
             aborted := match r' with Ok _ => None | Err e => Some e end |}
      end
  end.

(** One choice of the event loop.  An exception of the callback ends the
    [as_completed] loop and with it the batch, but lines 332-336 cancel no
    task: the tasks that are left go on, pass the semaphore and call
    [async_get], as long as the event loop runs them. *)
Definition step (on_game_updated : option (Game -> result unit))
    (s : batch) (c : choice) : batch :=
  match c with
  | Start i =>
      match tasks s !! i with
      | Some {| code := Acquire k; held := h |} =>
          match permits s with
          | O => s
          | S p => advance i k p (S h) s
          end
      | _ => s
      end
  | Resume i r =>
      match tasks s !! i with
      | Some {| code := Await_get _ k; held := h |} => advance i (k r) (permits s) h s
      | _ => s
      end
  | Next =>
      match aborted s with
      | Some _ => s
      | None => next_completed on_game_updated s
      end
  end.
Arguments step : simpl never.

Definition exec (on_game_updated : option (Game -> result unit))
    (sched : list choice) (s : batch) : batch :=
  foldl (step on_game_updated) s sched.

Definition loading (game : raw.game) : Game :=
  {| name := raw.name game;
     rating := JStr "loading";
     playtime := raw.playtime_forever game;
     app_id := str (raw.appid game) |}.

(** The state of the batch once the tasks are created, none started. *)
Definition launch (games : list raw.game) (cache : Cache) (tr : list event) : batch :=
  {| permits := MAX_CONCURRENT_REQUESTS;
     tasks := (fun game => {| code := _fetch_single_game_rating game cache; held := 0 |})
                <$> games;
     completed := [];
     consumed := 0;
     ratings_map := ∅;
     trace := tr;
     aborted := None |}.

(** Lines 304-315: every game with the rating [loading], sorted by playtime,
    descending. *)
Definition initial_game_ratings (games : list raw.game) : list Game :=
  list_sort playtime true (loading <$> games).

(** [Game(name=g.name, rating=ratings_map.get(g.app_id, 'pending'), ...)] *)
Definition rated (ratings_map : gmap string json) (g : Game) : Game :=
  {| name := name g;
     rating := default (JStr "pending") (ratings_map !! app_id g);
     playtime := playtime g;
     app_id := app_id g |}.

(** Lines 339-350: the ratings put in, sorted ascending, reversed. *)
Definition final_game_ratings (game_ratings : list Game) (ratings_map : gmap string json)
    : list Game :=
  reverse (list_sort playtime false (rated ratings_map <$> game_ratings)).

(** Lines 355-359. *)
Fixpoint games_to_remove (cache : Cache) (game_ratings_copy : list Game)
    : result (list Game) :=
  match game_ratings_copy with
  | [] => Ok []
  | game :: rest =>
      cached ← get_game_data cache (app_id game);
      rest' ← games_to_remove cache rest;
      mret (match cached with Some _ => game :: rest' | None => rest' end)
  end.

(** Lines 354-364: the copy of the list, without the games already cached. *)
Definition game_ratings_copy (cache : Cache) (game_ratings : list Game)
    : result (list Game) :=
  to_remove ← games_to_remove cache game_ratings;
  foldl (fun copy game => l ← copy; list_remove game l) (Ok game_ratings) to_remove.

(** [RATING_DICT[rating][0]] *)
Definition rating_num (rating : json) : result Z :=
  match rating with
  | JStr s =>
      match assoc s RATING_DICT with
      | Some value => Ok (fst value)
      | None => Err KeyError
      end
  | JList _ | JDict _ => Err TypeError
  | _ => Err KeyError
  end.

Fixpoint game_rating_nums (game_ratings : list Game) : result (list Z) :=
  match game_ratings with
  | [] => Ok []
  | game :: rest =>
      n ← rating_num (rating game);
      ns ← game_rating_nums rest;
      mret (n :: ns)
  end.

(** [next(key for key, value in d.items() if value[0] == user_average)] *)
Fixpoint first_key (user_average : Z) (d : list (string * (Z * string)))
    : result string :=
  match d with
  | [] => Err StopIteration
  | (key, value) :: d' =>
      if fst value =? user_average then Ok key else first_key user_average d'
  end.

(** Lines 369-376. *)
Definition user_average_text (game_ratings : list Game) : result string :=
  nums ← game_rating_nums game_ratings;
  user_average ← round_div (sum nums) (Z.of_nat (length nums));
  first_key user_average RATING_DICT.

Record run : Type := {
  result_of : outcome SteamUserData;
  events : list event;
}.

(** Lines 338-376, after the [as_completed] loop.  What is raised here
    leaves the coroutine of the batch: the [StopIteration] of [next] at
    line 372 reaches the caller as a [RuntimeError]. *)
Definition finalize (cache : Cache) (game_ratings : list Game)
    (ratings_map : gmap string json) (tr : list event) : run :=
  let game_ratings := final_game_ratings game_ratings ratings_map in
  match game_ratings_copy cache game_ratings with
  | Err e => {| result_of := Raised (leaving e); events := tr |}
  | Ok _ =>
      let tr' := tr ++ [Cache_updated (Game_list game_ratings)] in
      match user_average_text game_ratings with
      | Err e => {| result_of := Raised (leaving e); events := tr' |}
      | Ok text =>
          {| result_of := Returned {| game_ratings := game_ratings; user_average := text |};
             events := tr' |}
      end
  end.

(** [sched] is what the event loop does while the batch resolves; a
    schedule that ends before the batch does leaves it [Running].  The two
    callbacks are those of the caller: they may raise, and they are taken
    to read what they are handed, not to change it.  An exception leaves
    the coroutine as [leaving] says.  The events of a batch that a
    callback has stopped go on with what its tasks still do. *)
Definition _parse_steam_user_games (data : SteamAPIUserDataResponse) (cache : Cache)
    (on_games_loaded : option (list Game -> result unit))
    (on_game_updated : option (Game -> result unit))
    (sched : list choice) : run :=
  match response_games data with
  | None => {| result_of := Raised PrivateAccountError; events := [] |}
  | Some games =>
      let game_ratings := initial_game_ratings games in
      match notify on_games_loaded On_games_loaded game_ratings with
      | (tr, Err e) => {| result_of := Raised (leaving e); events := tr |}
      | (tr, Ok _) =>
          let s := exec on_game_updated sched (launch games cache tr) in
          match aborted s with
          | Some e => {| result_of := Raised (leaving e); events := trace s |}
          | None =>
              if (consumed s <? length (tasks s))%nat
              then {| result_of := Running; events := trace s |}
              else finalize cache game_ratings (ratings_map s) (trace s)
          end
      end
  end.

(** *** Observations on a batch *)

Definition in_flight (t : task) : bool := (0 <? held t)%nat.

Definition awaiting (t : task) : bool :=
  match code t with
  | Await_get _ _ => true
  | _ => false
  end.

Definition is_request (e : event) : bool :=
  match e with
  | Request _ _ => true
  | _ => false
  end.

Definition is_snapshot (e : event) : bool :=
  match e with
  | On_games_loaded _ => true
  | _ => false
  end.

(** Sorted by playtime, descending. *)
Definition descending (l : list Game) : Prop :=
  StronglySorted (fun a b => playtime b <= playtime a) l.

(** The entries of a given playtime, in the order of the list. *)
Definition tied (p : Z) (l : list Game) : list Game :=
  filter (fun g => playtime g = p) l.


(** The invariant of a batch: the permits left and the permits held add up
    to the size of the semaphore, every task is [gated] and none can raise,
    and only games wait in the [as_completed] queue. *)
Definition wf (s : batch) : Prop :=
  (permits s + sum_list_with held (tasks s) = MAX_CONCURRENT_REQUESTS)%nat /\
  Forall (fun t => gated (held t) (code t)) (tasks s) /\
  Forall (fun t => no_raise (code t)) (tasks s) /\
  Forall (fun r => exists g, r = Ok g) (completed s).

(** A task that has not started: it waits for the semaphore with the whole
    rating lookup, of at most two requests, ahead of it. *)
Definition fresh_task (t : task) : Prop :=
  held t = 0%nat /\
  exists body, requests_only body /\ awaits_le 2 body /\ code t = Acquire (releasing body).

(** [idle k s]: the batch is between two tasks: [k] results are consumed,
    none waits in the queue, every permit is back, and the tasks from the
    [k]-th on have not started. *)
Definition idle (k : nat) (s : batch) : Prop :=
  wf s /\ aborted s = None /\ completed s = [] /\ consumed s = k /\
  permits s = MAX_CONCURRENT_REQUESTS /\
  forall j t, (k <= j)%nat -> tasks s !! j = Some t -> fresh_task t.

(** *** The aggregate, in the words of the specification *)






(** ** Identity resolution and the owned-games request *)

(** More constants of [vapor.data_structures]. *)
Variable HTTP_FORBIDDEN : Z.
Variable HTTP_BAD_REQUEST : Z.
Variable HTTP_UNAUTHORIZED : Z.
Variable STEAM_USER_ID_LENGTH : Z.

(** [repr(v)], used for the lists and dictionaries an f-string is given. *)
Variable repr : json -> string.

(** [cast(SteamAPIUserDataResponse, v)]: the payload read at its declared
    type. *)
Variable as_user_data : json -> SteamAPIUserDataResponse.

(** [v != 1] *)
Definition differs_from_1 (v : json) : bool :=
  match v with
  | JInt n => negb (n =? 1)
  | JBool b => negb b
  | _ => true
  end.

(** [f'{v}'] *)
Definition fstring (v : json) : string :=
  match v with
  | JStr s => s
  | JInt n => str n
  | JBool true => "True"
  | JBool false => "False"
  | JNull => "None"
  | _ => repr v
  end.

Definition vanity_url (api_key name : string) : string :=
  "https://api.steampowered.com/ISteamUser/ResolveVanityURL/v0001/?key=" +:+ api_key
    +:+ "&vanityurl=" +:+ name.

Definition owned_games_url (api_key user_id : string) : string :=
  "http://api.steampowered.com/IPlayerService/GetOwnedGames/v0001/?key=" +:+ api_key
    +:+ "&steamid=" +:+ user_id
    +:+ "&format=json&include_appinfo=1&include_played_free_games=1".

Definition resolve_vanity_name (api_key name : string) : coro (reply json) :=
  resp ← async_get (vanity_url api_key name);
  if status resp =? HTTP_FORBIDDEN then mret (Raises UnauthorizedError) else
  user_data ← lift (loads (data resp));
  present ← lift (py_contains "response" user_data);
  if negb present then mret (Raises InvalidIDError) else
  response ← lift (py_getitem user_data "response");
  success ← lift (py_getitem response "success");
  if differs_from_1 success then mret (Raises InvalidIDError) else
  steamid ← lift (py_getitem response "steamid");
  mret (Gives steamid).

(** Lines 217-224 of [get_steam_user_data]: the identifier the owned games
    are asked for. *)
Definition steam_id (api_key user_id : string) : coro (reply string) :=
  if negb (Z.of_nat (len user_id) =? STEAM_USER_ID_LENGTH)
     || negb (String.prefix "76561198" user_id)
  then
    resolved ← resolve_vanity_name api_key user_id;
    match resolved with
    | Gives steamid => mret (Gives (fstring steamid))
    | Raises UnauthorizedError => mret (Raises UnauthorizedError)
    | Raises InvalidIDError => mret (Gives user_id)
    end
  else mret (Gives user_id).

(** Lines 217-236 of [get_steam_user_data]: up to the payload that is
    handed to [_parse_steam_user_games]. *)
Definition owned_games (api_key user_id : string)
    : coro (reply SteamAPIUserDataResponse) :=
  resolved ← steam_id api_key user_id;
  match resolved with
  | Raises e => mret (Raises e)
  | Gives user_id =>
      resp ← async_get (owned_games_url api_key user_id);
      if status resp =? HTTP_BAD_REQUEST then mret (Raises InvalidIDError) else
      if status resp =? HTTP_UNAUTHORIZED then mret (Raises UnauthorizedError) else
      user_data ← lift (loads (data resp));
      mret (Gives (as_user_data user_data))
  end.

(** How a call of [get_steam_user_data] stands: its own requests are not
    all answered yet, it has raised, or it is in the batch. *)
Inductive call : Type :=
| Waiting
| Raised_vapor (e : vapor_exn)
| Raised_other (e : exn)
| Batch (r : run).

(** [rs] answers the requests made before the batch, [sched] drives the
    batch; [cache] is the handle that [Cache().load_cache()] gives. *)
Definition get_steam_user_data (api_key user_id : string) (cache : Cache)
    (on_games_loaded : option (list Game -> result unit))
    (on_game_updated : option (Game -> result unit))
    (rs : list (result Response)) (sched : list choice) : call :=
  match replay (owned_games api_key user_id) rs with
  | None => Waiting
  | Some (Err e) => Raised_other e
  | Some (Ok (Raises e)) => Raised_vapor e
  | Some (Ok (Gives user_data)) =>
      Batch (_parse_steam_user_games user_data cache on_games_loaded on_game_updated sched)
  end.

(** *** More observations *)

(** The games given to [on_game_updated], in order. *)
Definition streamed (tr : list event) : list Game :=
  omap (fun e => match e with On_game_updated g => Some g | _ => None end) tr.

(** The requests made, in order. *)
Definition requests (tr : list event) : list string :=
  omap (fun e => match e with Request _ url => Some url | _ => None end) tr.

(** The arguments of [update_cache], in order. *)
Definition cache_updates (tr : list event) : list cache_update :=
  omap (fun e => match e with Cache_updated u => Some u | _ => None end) tr.

Definition returned (t : task) : option Game :=
  match code t with
  | Ret g => Some g
  | _ => None
  end.

Definition queued (r : result Game) : option Game :=
  match r with
  | Ok g => Some g
  | Err _ => None
  end.

(** [ratings_map] after the games [cs] have come out of [as_completed]. *)
Definition map_of (cs : list Game) : gmap string json :=
  foldl (fun m g => <[app_id g := rating g]> m) ∅ cs.

(** The fresh cache answers for the game. *)
Definition cache_hit (cache : Cache) (game : raw.game) : bool :=
  has_game_cache cache &&
  match get_game_data cache (str (raw.appid game)) with
  | Ok (Some _) => true
  | _ => false
  end.

(** The game of the cache that a lookup finds, if the lookup finds one. *)
Definition cached (cache : Cache) (g : Game) : bool :=
  match get_game_data cache (app_id g) with
  | Ok (Some _) => true
  | _ => false
  end.

(** The resolved game is the input game but for its rating. *)
Definition resolves (game : raw.game) (g : Game) : Prop :=
  name g = raw.name game /\
  playtime g = raw.playtime_forever game /\
  app_id g = str (raw.appid game).

(** [owes n c]: the task will make at most [n] more requests. *)
Definition owes (n : nat) (c : coro Game) : Prop :=
  match c with
  | Await_get _ k => forall r, awaits_le n (k r)
  | _ => awaits_le n c
  end.

(** A property of a task that running the task keeps. *)
Definition closed (Q : coro Game -> Prop) : Prop :=
  (forall k, Q (Acquire k) -> Q k) /\
  (forall k, Q (Release k) -> Q k) /\
  (forall u k, Q (Update_cache u k) -> Q k) /\
  (forall url k r, Q (Await_get url k) -> Q (k r)).

(** The books of the [as_completed] loop: the games [cs] that came out of
    it made [ratings_map] and, when the callback is given, were streamed;
    together with the games still in the queue they are the games the
    tasks have returned. *)
Definition accounted (on_game_updated : option (Game -> result unit))
    (s : batch) (cs : list Game) : Prop :=
  ratings_map s = map_of cs /\
  streamed (trace s) = match on_game_updated with Some _ => cs | None => [] end /\
  cs ++ omap queued (completed s) ≡ₚ omap returned (tasks s) /\
  length cs = consumed s.





(** A task stands where the event loop takes over: it waits for the
    semaphore or for an answer, or it has ended. *)
Definition parked (c : coro Game) : Prop :=
  match c with
  | Release _ | Update_cache _ _ => False
  | _ => True
  end.

(** The entry of the anti-cheat list names a Steam identifier. *)
Definition has_steam (game : json) : bool :=
  match py_getitem game "storeIds" with
  | Ok store_ids =>
      match py_contains "steam" store_ids with
      | Ok b => b
      | Err _ => false
      end
  | Err _ => false
  end.

(** ** Worked inputs *)

(** Modelled from the spec: [RATING_DICT] of [vapor.data_structures] is not
    among the sources; the ranks are those of the glossary (borked 1,
    bronze 2, silver 3, gold 4, platinum 5, native 5) and of section 4.4
    (pending 0). *)
Definition glossary_RATING_DICT : list (string * (Z * string)) :=
  [("pending", (0, "blue")); ("borked", (1, "red")); ("bronze", (2, "brown"));
   ("silver", (3, "grey")); ("gold", (4, "yellow")); ("platinum", (5, "white"));
   ("native", (5, "green"))].

(** A [json.loads] that knows three bodies. *)
Definition sample_loads (body : string) : option json :=
  assoc body
    [("tier gold", JDict [("tier", JStr "gold")]);
     ("no platforms", JDict []);
     ("anti-cheat list",
      JList [JDict [("storeIds", JDict [("steam", JStr "10")]);
                    ("status", JStr "Supported")];
             JDict [("storeIds", JDict []); ("status", JStr "Denied")]])].

Definition sample_statuses : list string := ["Supported"; "Denied"].

Definition answer (code : Z) (body : string) : result Response :=
  Ok {| data := body; status := code |}.

Definition empty_cache : Cache :=
  {| has_game_cache := false;
     has_anticheat_cache := false;
     get_game_data := fun _ => Ok None |}.

Definition game_A_gold : Game :=
  {| name := "A"; rating := JStr "gold"; playtime := 5; app_id := "10" |}.

(** A fresh cache that holds game 10. *)
Definition cache_with_A : Cache :=
  {| has_game_cache := true;
     has_anticheat_cache := true;
     get_game_data := fun id => Ok (if String.eqb id "10" then Some game_A_gold else None) |}.

Definition game_B : raw.game :=
  {| raw.appid := 20; raw.name := "B"; raw.playtime_forever := 50 |}.
Definition game_A : raw.game :=
  {| raw.appid := 10; raw.name := "A"; raw.playtime_forever := 5 |}.
Definition game_C : raw.game :=
  {| raw.appid := 30; raw.name := "C"; raw.playtime_forever := 5 |}.

Definition owned (games : list raw.game) : SteamAPIUserDataResponse :=
  {| response_games := Some games |}.

Definition quiet : option (Game -> result unit) := Some (fun _ => Ok ()).
Definition quiet_list : option (list Game -> result unit) := Some (fun _ => Ok ()).

(** The scenario of section 8 of the specification: B is refused by the
    tier lookup, A is gold, neither is native. *)
Definition scenario : list choice :=
  [Start 0%nat; Start 1%nat;
   Resume 0%nat (answer 200 "no platforms"); Resume 1%nat (answer 200 "no platforms");
   Resume 1%nat (answer 200 "tier gold"); Next;
   Resume 0%nat (answer 500 "refused"); Next].

(** Two tasks, each answered "not native" and then "gold". *)
Definition both_gold : list choice :=
  [Start 0%nat; Start 1%nat;
   Resume 0%nat (answer 200 "no platforms"); Resume 0%nat (answer 200 "tier gold");
   Resume 1%nat (answer 200 "no platforms"); Resume 1%nat (answer 200 "tier gold");
   Next; Next].

Definition game_B_pending : Game :=
  {| name := "B"; rating := JStr "pending"; playtime := 50; app_id := "20" |}.
Definition game_B_gold : Game :=
  {| name := "B"; rating := JStr "gold"; playtime := 50; app_id := "20" |}.
Definition game_C_gold : Game :=
  {| name := "C"; rating := JStr "gold"; playtime := 5; app_id := "30" |}.


Definition scenario_result : SteamUserData :=
  {| game_ratings := [game_B_pending; game_A_gold]; user_average := "bronze" |}.
Definition twice_A : SteamUserData :=
  {| game_ratings := [game_A_gold; game_A_gold]; user_average := "gold" |}.
Definition tie_result : SteamUserData :=
  {| game_ratings := [game_C_gold; game_A_gold]; user_average := "gold" |}.

(** B goes to the network and comes back gold; A is answered by the cache. *)
Definition mixed : list choice :=
  [Start 0%nat; Start 1%nat;
   Resume 0%nat (answer 200 "no platforms"); Resume 0%nat (answer 200 "tier gold");
   Next; Next].

(** Twenty-five games, all let through the semaphore as far as it allows. *)
Definition crowd : list raw.game :=
  (fun n => {| raw.appid := Z.of_nat n; raw.name := "game"; raw.playtime_forever := 1 |})
    <$> seq 0 25.
Definition rush : list choice := Start <$> seq 0 25.

(** A [json.loads] that also knows bodies of the store, of ProtonDB, of the
    anti-cheat list and of the two Steam calls of [get_steam_user_data]. *)
Definition steam_loads (body : string) : option json :=
  assoc body
    [("linux build",
      JDict [("10", JDict [("success", JBool true);
                           ("data", JDict [("platforms",
                                            JDict [("linux", JBool true)])])])]);
     ("no such app", JDict [("10", JDict [("success", JBool false)])]);
     ("tier gold", JDict [("tier", JStr "gold")]);
     ("tier diamond", JDict [("tier", JStr "diamond")]);
     ("tier loading", JDict [("tier", JStr "loading")]);
     ("tier borked", JDict [("tier", JStr "borked")]);
     ("unknown status",
      JList [JDict [("storeIds", JDict [("steam", JStr "10")]);
                    ("status", JStr "Planned")]]);
     ("resolved",
      JDict [("response", JDict [("success", JInt 1);
                                 ("steamid", JStr "76561198000000001")])]);
     ("no match",
      JDict [("response", JDict [("success", JInt 42);
                                 ("message", JStr "No match")])]);
     ("library", JDict [("response", JDict [("game_count", JInt 2)])])].

Definition sample_anti_cheat_list : list json :=
  [JDict [("storeIds", JDict [("steam", JStr "10")]); ("status", JStr "Supported")];
   JDict [("storeIds", JDict []); ("status", JStr "Planned")];
   JDict [("storeIds", JDict [("steam", JStr "30"); ("epic", JStr "x")]);
          ("status", JStr "Denied")]].

Definition sample_repr (v : json) : string := "[...]".

(** The payload of the owned-games call, read as the library of B and A. *)
Definition sample_user_data (payload : json) : SteamAPIUserDataResponse :=
  match payload with
  | JDict (("response", JDict (_ :: _)) :: _) => owned [game_B; game_A]
  | _ => {| response_games := None |}
  end.

(** One game, not native, whose tier is not a key of [RATING_DICT]. *)
Definition diamond : list choice :=
  [Start 0%nat; Resume 0%nat (answer 200 "no such app");
   Resume 0%nat (answer 200 "tier diamond"); Next].

Definition game_A_diamond : Game :=
  {| name := "A"; rating := JStr "diamond"; playtime := 5; app_id := "10" |}.



(** Three tasks, each answered "not native" and then "gold". *)
Definition three_gold : list choice :=
  [Start 0%nat; Start 1%nat; Start 2%nat;
   Resume 0%nat (answer 200 "no platforms"); Resume 0%nat (answer 200 "tier gold");
   Resume 1%nat (answer 200 "no platforms"); Resume 1%nat (answer 200 "tier gold");
   Resume 2%nat (answer 200 "no platforms"); Resume 2%nat (answer 200 "tier gold");
   Next; Next; Next].




(** A is resolved and given to the callback while B still waits for the
    store; B is answered afterwards. *)
Definition late_answer : list choice :=
  [Start 0%nat; Start 1%nat;
   Resume 1%nat (answer 200 "no platforms"); Resume 1%nat (answer 200 "tier gold");
   Next;
   Resume 0%nat (answer 200 "no platforms")].




(** A callback that raises on game 10. *)
Definition refuses_A : Game -> result unit :=
  fun g => if String.eqb (app_id g) "10" then Err ValueError else Ok ().

(** * Properties *)

(** ** The stable sort *)

Lemma insert_sorted_perm {A : Type} before (key : A -> Z) x s :
  insert_sorted before key x s ≡ₚ x :: s.
Proof.
  induction s as [|y s IH]; simpl; [done|].
  destruct (before (key y) (key x)); [|done].
  rewrite IH. apply Permutation_swap.
Qed.

Lemma list_sort_perm {A : Type} (key : A -> Z) reverse l :
  list_sort key reverse l ≡ₚ l.
Proof.
  unfold list_sort. induction l as [|x l IH]; simpl; [done|].
  by rewrite insert_sorted_perm, IH.
Qed.

Lemma list_sort_length {A : Type} (key : A -> Z) reverse l :
  length (list_sort key reverse l) = length l.
Proof. by rewrite list_sort_perm. Qed.

(** An entry is put in front of the entries of its own key. *)
Lemma filter_insert_sorted {A : Type} before (key : A -> Z) p x s :
  (forall k, before k k = false) ->
  filter (fun a => key a = p) (insert_sorted before key x s)
  = filter (fun a => key a = p) (x :: s).
Proof.
  intros Hirr. induction s as [|y s IH]; simpl; [done|].
  destruct (before (key y) (key x)) eqn:Hb; [|done].
  rewrite filter_cons, IH, !filter_cons.
  destruct (decide (key y = p)) as [Hy|Hy]; [|done].
  destruct (decide (key x = p)) as [Hx|Hx]; [|done].
  rewrite Hy, Hx, Hirr in Hb. discriminate.
Qed.

(** Stability: the entries of one key keep their order. *)
Lemma filter_list_sort {A : Type} (key : A -> Z) reverse p l :
  filter (fun a => key a = p) (list_sort key reverse l)
  = filter (fun a => key a = p) l.
Proof.
  unfold list_sort. induction l as [|x l IH]; simpl; [done|].
  rewrite filter_insert_sorted.
  - by rewrite !filter_cons, IH.
  - intros k. destruct reverse; [rewrite Z.gtb_ltb|]; apply Z.ltb_irrefl.
Qed.


Lemma insert_sorted_descending {A : Type} (key : A -> Z) x s :
  StronglySorted (fun a b => key b <= key a) s ->
  StronglySorted (fun a b => key b <= key a) (insert_sorted Z.gtb key x s).
Proof.
  induction 1 as [|y s Hs IH Hy]; simpl.
  - repeat constructor.
  - rewrite Z.gtb_ltb. destruct (Z.ltb_spec (key x) (key y)) as [Hlt|Hge].
    + constructor; [done|].
      rewrite insert_sorted_perm. constructor; [lia|done].
    + constructor; [by constructor|].
      constructor; [done|].
      eapply Forall_impl; [exact Hy|]. simpl. intros; lia.
Qed.


Lemma list_sort_descending {A : Type} (key : A -> Z) l :
  StronglySorted (fun a b => key b <= key a) (list_sort key true l).
Proof.
  unfold list_sort. induction l; simpl; [constructor|].
  by apply insert_sorted_descending.
Qed.


Lemma str_inj n m : str n = str m -> n = m.
Proof.
  unfold str. intros H.
  apply DecimalZ.to_int_inj.
  assert (Some (Z.to_int n) = Some (Z.to_int m)) as [= ->]; [|done].
  by rewrite <- !NilEmpty.isi, H.
Qed.

(** ** The two lists of a batch *)

Lemma tied_loading p games :
  tied p (loading <$> games)
  = loading <$> filter (fun g => raw.playtime_forever g = p) games.
Proof.
  unfold tied. induction games as [|g games IH]; [done|].
  rewrite fmap_cons, !filter_cons. simpl.
  destruct (decide (raw.playtime_forever g = p)); by rewrite IH.
Qed.

Lemma tied_rated p m l : tied p (rated m <$> l) = rated m <$> tied p l.
Proof.
  unfold tied. induction l as [|g l IH]; [done|].
  rewrite fmap_cons, !filter_cons. simpl.
  destruct (decide (playtime g = p)); by rewrite IH.
Qed.

Lemma tied_initial p games :
  tied p (initial_game_ratings games)
  = loading <$> filter (fun g => raw.playtime_forever g = p) games.
Proof.
  unfold initial_game_ratings, tied.
  rewrite filter_list_sort. apply tied_loading.
Qed.

Lemma tied_final p l m :
  tied p (final_game_ratings l m) = reverse (rated m <$> tied p l).
Proof.
  unfold final_game_ratings, tied.
  rewrite filter_reverse, filter_list_sort. f_equal. apply tied_rated.
Qed.

Lemma initial_perm games : initial_game_ratings games ≡ₚ loading <$> games.
Proof. apply list_sort_perm. Qed.

Lemma final_perm l m : final_game_ratings l m ≡ₚ rated m <$> l.
Proof.
  unfold final_game_ratings. by rewrite reverse_Permutation, list_sort_perm.
Qed.

Lemma final_ids games m :
  app_id <$> final_game_ratings (initial_game_ratings games) m
  ≡ₚ (fun g => str (raw.appid g)) <$> games.
Proof.
  rewrite final_perm, initial_perm, <- !list_fmap_compose.
  by erewrite list_fmap_ext.
Qed.



(** What a batch that returns has gone through. *)
Lemma parse_returned data cache on_games_loaded on_game_updated sched r :
  result_of (_parse_steam_user_games data cache on_games_loaded on_game_updated sched)
  = Returned r ->
  exists games m,
    response_games data = Some games /\
    game_ratings r = final_game_ratings (initial_game_ratings games) m /\
    user_average_text (game_ratings r) = Ok (user_average r).
Proof.
  unfold _parse_steam_user_games.
  destruct (response_games data) as [games|]; [|discriminate].
  destruct (notify _ _ _) as [tr [[]|]]; [|discriminate].
  destruct (aborted _); [discriminate|].
  destruct (_ <? _)%nat; [discriminate|].
  unfold finalize.
  destruct (game_ratings_copy _ _); [|discriminate].
  destruct (user_average_text _) as [text|] eqn:Htext; [|discriminate].
  simpl. intros [= <-]. eauto.
Qed.

Lemma rev_ne_of_nodup {A : Type} (l : list A) :
  NoDup l -> (2 <= length l)%nat -> reverse l <> l.
Proof.
  destruct l as [|a [|b l]]; simpl; [lia|lia|].
  intros Hnd _ Heq.
  rewrite !reverse_cons in Heq.
  apply (f_equal last) in Heq. rewrite last_snoc in Heq. simpl in Heq.
  apply NoDup_cons in Hnd as [Ha _].
  apply Ha. destruct l as [|c l]; simpl in Heq.
  - injection Heq as ->. left.
  - right. apply list_elem_of_In.
    assert (last (c :: l) = Some a) as H by (by destruct l).
    clear -H. revert c H. induction l as [|d l IH]; intros c H; simpl in *.
    + injection H as ->. by left.
    + right. by apply IH.
Qed.

(** ** The result of a batch *)

(** C1 (as amended): the list a batch returns has as many entries as the
    input games list and carries the same identifiers with the same
    multiplicities; its identifiers are pairwise distinct exactly when the
    input's are. *)
Theorem batch_keeps_games data cache on_games_loaded on_game_updated sched r :
  result_of (_parse_steam_user_games data cache on_games_loaded on_game_updated sched)
  = Returned r ->
  exists games,
    response_games data = Some games /\
    length (game_ratings r) = length games /\
    app_id <$> game_ratings r ≡ₚ (fun g => str (raw.appid g)) <$> games /\
    (NoDup (app_id <$> game_ratings r) <-> NoDup (raw.appid <$> games)).
Proof.
  intros (games & m & Hgames & Hfinal & _)%parse_returned.
  exists games. pose proof (final_ids games m) as Hids.
  rewrite <- Hfinal in Hids. split_and!; [done| | done |].
  - apply Permutation_length in Hids. by rewrite !length_fmap in Hids.
  - rewrite Hids, (list_fmap_compose raw.appid str).
    apply NoDup_fmap. intros n n'. apply str_inj.
Qed.

(** ** Coroutine trees *)

Lemma requests_only_bind {A B : Type} (c : coro A) (f : A -> coro B) :
  requests_only c -> (forall a, requests_only (f a)) -> requests_only (c ≫= f).
Proof. induction 1; intros Hf; simpl; try constructor; auto. Qed.

Lemma requests_only_try {A : Type} (c : coro A) h :
  requests_only c -> (forall e, requests_only (h e)) -> requests_only (try_except c h).
Proof. induction 1; intros Hh; simpl; try constructor; auto. Qed.

Lemma requests_only_lift {A : Type} (r : result A) : requests_only (lift r).
Proof. destruct r; constructor. Qed.

Lemma requests_only_async_get url : requests_only (async_get url).
Proof. constructor. intros r. apply requests_only_lift. Qed.

Lemma gated_releasing {A : Type} (c : coro A) : requests_only c -> gated 1 (releasing c).
Proof. induction 1; simpl; repeat constructor; auto. Qed.

Lemma gated_held {A : Type} h (c : coro A) : gated h c -> (h <= 1)%nat.
Proof. induction 1; lia. Qed.

Lemma no_raise_bind {A B : Type} (c : coro A) (f : A -> coro B) :
  no_raise c -> (forall a, no_raise (f a)) -> no_raise (c ≫= f).
Proof. induction 1; intros Hf; simpl; try constructor; auto. Qed.

Lemma no_raise_try {A : Type} (c : coro A) h :
  (forall e, no_raise (h e)) -> no_raise (try_except c h).
Proof. intros Hh. induction c; simpl; try constructor; auto. Qed.

Lemma no_raise_releasing {A : Type} (c : coro A) : no_raise c -> no_raise (releasing c).
Proof. induction 1; simpl; repeat constructor; auto. Qed.

Lemma awaits_le_mono {A : Type} n m (c : coro A) :
  awaits_le n c -> (n <= m)%nat -> awaits_le m c.
Proof.
  intros H. revert m. induction H; intros m Hm; try (constructor; auto).
  destruct m as [|m]; [lia|]. constructor. intros r. apply H0. lia.
Qed.

Lemma awaits_le_bind {A B : Type} n m (c : coro A) (f : A -> coro B) :
  awaits_le n c -> (forall a, awaits_le m (f a)) -> awaits_le (n + m) (c ≫= f).
Proof.
  induction 1; intros Hf; simpl; try (constructor; auto).
  eapply awaits_le_mono; [apply Hf|lia].
Qed.

Lemma awaits_le_try {A : Type} n (c : coro A) x :
  awaits_le n c -> awaits_le n (try_except c (fun _ => Ret x)).
Proof. induction 1; simpl; constructor; auto. Qed.

Lemma awaits_le_releasing {A : Type} n (c : coro A) :
  awaits_le n c -> awaits_le n (releasing c).
Proof. induction 1; simpl; repeat constructor; auto. Qed.

Lemma awaits_le_lift {A : Type} n (r : result A) : awaits_le n (lift r).
Proof. destruct r; constructor. Qed.

Lemma replay_total {A : Type} n (c : coro A) rs :
  awaits_le n c -> (n <= length rs)%nat -> is_Some (replay c rs).
Proof.
  intros H. revert rs. induction H; intros rs Hn; simpl; eauto.
  destruct rs as [|r rs]; simpl in Hn; [lia|]. apply H0. lia.
Qed.

Lemma replay_no_raise {A : Type} (c : coro A) rs e :
  no_raise c -> replay c rs <> Some (Err e).
Proof.
  intros H. revert rs. induction H; intros rs; simpl; auto; try done.
  destruct rs; [done|]. auto.
Qed.

Lemma replay_try {A : Type} (c : coro A) x rs :
  replay (try_except c (fun _ => Ret x)) rs
  = (fun r => match r with Ok a => Ok a | Err _ => Ok x end) <$> replay c rs.
Proof.
  revert rs. induction c; intros rs; simpl; auto.
  destruct rs; simpl; auto.
Qed.

Lemma replay_bind_ret {A B : Type} (c : coro A) (f : A -> B) rs :
  replay (c ≫= fun a => Ret (f a)) rs
  = (fun r => match r with Ok a => Ok (f a) | Err e => Err e end) <$> replay c rs.
Proof.
  revert rs. induction c; intros rs; simpl; auto.
  destruct rs; simpl; auto.
Qed.

Lemma replay_releasing {A : Type} (c : coro A) rs :
  replay (releasing c) rs = replay c rs.
Proof.
  revert rs. induction c; intros rs; simpl; auto.
  destruct rs; simpl; auto.
Qed.

(** ** The resolver as a tree *)

Ltac branches :=
  repeat match goal with
    | |- context [if ?b then _ else _] => destruct b
    | |- context [match ?x with Some _ => _ | None => _ end] => destruct x
    end.

Ltac requests_only_tac :=
  repeat first
    [ apply requests_only_lift
    | apply requests_only_async_get
    | apply requests_only_ret
    | apply requests_only_bind; [|intros ?]
    | progress branches ].

Ltac pure_awaits :=
  repeat first
    [ apply awaits_le_lift
    | apply awaits_ret
    | apply (awaits_le_bind 0 0); [|intros ?]
    | progress branches ].

Lemma requests_only_check_game_is_native app_id : requests_only (check_game_is_native app_id).
Proof. unfold check_game_is_native. requests_only_tac. Qed.

Lemma requests_only_get_game_average_rating app_id cache :
  requests_only (get_game_average_rating app_id cache).
Proof.
  unfold get_game_average_rating.
  pose proof (requests_only_check_game_is_native app_id).
  requests_only_tac; done.
Qed.

Lemma awaits_async_get url : awaits_le 1 (async_get url).
Proof. constructor. intros r. apply awaits_le_lift. Qed.

Lemma awaits_check_game_is_native app_id : awaits_le 1 (check_game_is_native app_id).
Proof.
  unfold check_game_is_native.
  apply (awaits_le_bind 1 0); [apply awaits_async_get|intros resp].
  pure_awaits.
Qed.

Lemma awaits_get_game_average_rating app_id cache :
  awaits_le 2 (get_game_average_rating app_id cache).
Proof.
  assert (forall k : json -> coro json,
            (forall v, awaits_le 1 (k v)) ->
            awaits_le 2 (check_game_is_native app_id ≫= k)) as Huncached.
  { intros k Hk. by apply (awaits_le_bind 1 1); [apply awaits_check_game_is_native|]. }
  assert (forall v : json,
            awaits_le 1
              (if truthy v then mret (JStr "native") else
               resp ← async_get (protondb_url app_id);
               if negb (status resp =? HTTP_SUCCESS) then mret (JStr "pending") else
               json_data ← lift (loads (data resp));
               lift (py_get json_data "tier" (JStr "pending")))) as Hrest.
  { intros v. destruct (truthy v); [constructor|].
    apply (awaits_le_bind 1 0); [apply awaits_async_get|intros resp].
    pure_awaits. }
  unfold get_game_average_rating.
  destruct (has_game_cache cache); [|by apply Huncached].
  apply (awaits_le_bind 0 2); [apply awaits_le_lift|].
  intros [g|]; [constructor|by apply Huncached].
Qed.

Lemma gated_fetch_single_game_rating game cache :
  gated 0 (_fetch_single_game_rating game cache).
Proof.
  unfold _fetch_single_game_rating, async_with_semaphore.
  constructor. apply gated_releasing.
  apply requests_only_bind; [|constructor].
  apply requests_only_try; [apply requests_only_get_game_average_rating|constructor].
Qed.

Lemma no_raise_fetch_single_game_rating game cache :
  no_raise (_fetch_single_game_rating game cache).
Proof.
  unfold _fetch_single_game_rating, async_with_semaphore.
  constructor. apply no_raise_releasing.
  apply no_raise_bind; [|constructor].
  apply no_raise_try. constructor.
Qed.

Lemma awaits_fetch_single_game_rating game cache :
  awaits_le 2 (_fetch_single_game_rating game cache).
Proof.
  unfold _fetch_single_game_rating, async_with_semaphore.
  constructor. apply awaits_le_releasing.
  apply (awaits_le_bind 2 0); [|constructor].
  apply awaits_le_try, awaits_get_game_average_rating.
Qed.

(** ** The batch as a state machine *)

Lemma settle_trace i c p h tr :
  exists ext,
    (settle i c p h tr).2 = tr ++ ext /\ Forall (fun e => is_snapshot e = false) ext.
Proof.
  revert p h tr. induction c as [| |url k IH|k IH|k IH|u k IH]; intros p h tr; simpl;
    try (exists []; by rewrite app_nil_r).
  - exists [Request i url]. by repeat constructor.
  - apply IH.
  - destruct (IH p h (tr ++ [Cache_updated u])) as (ext & -> & Hext).
    exists (Cache_updated u :: ext). rewrite <- app_assoc. by repeat constructor.
Qed.

Lemma settle_wf i c p h tr :
  gated h c -> no_raise c ->
  let '(c', p', h', _) := settle i c p h tr in
  gated h' c' /\ no_raise c' /\ (p' + h' = p + h)%nat.
Proof.
  intros Hg. revert p tr. induction Hg; intros p tr Hn; simpl; inv Hn;
    try (split_and!; by try constructor).
  - specialize (IHHg (S p) tr H0). simpl.
    destruct (settle i k (S p) 0 tr) as [[[c' p'] h'] tr'].
    destruct IHHg as (? & ? & ?). split_and!; [done..|lia].
  - by apply IHHg.
Qed.

Lemma sum_held_insert (l : list task) i t t' :
  l !! i = Some t ->
  (sum_list_with held (<[i := t']> l) + held t = sum_list_with held l + held t')%nat.
Proof.
  revert i. induction l as [|x l IH]; intros [|i] Hi; simpl in *; try done.
  - injection Hi as ->. lia.
  - specialize (IH i Hi). lia.
Qed.

Lemma advance_wf i c p h s t :
  wf s -> tasks s !! i = Some t ->
  gated h c -> no_raise c ->
  (p + h + sum_list_with held (tasks s) = MAX_CONCURRENT_REQUESTS + held t)%nat ->
  wf (advance i c p h s).
Proof.
  intros (Hsum & Hgated & Hsafe & Hdone) Hi Hg Hn Hp.
  unfold advance. pose proof (settle_wf i c p h (trace s) Hg Hn) as Hs.
  destruct (settle i c p h (trace s)) as [[[c' p'] h'] tr'].
  destruct Hs as (Hg' & Hn' & Hp'). unfold wf; simpl. split_and!.
  - pose proof (sum_held_insert (tasks s) i t {| code := c'; held := h' |} Hi) as Hins.
    simpl in Hins. lia.
  - by apply Forall_insert.
  - by apply Forall_insert.
  - apply Forall_app; split; [done|].
    destruct c'; simpl; repeat constructor; [by eexists|inv Hn'].
Qed.

Lemma launch_wf games cache tr : wf (launch games cache tr).
Proof.
  unfold wf, launch. cbn [permits tasks completed]. split_and!.
  - replace (sum_list_with held _) with 0%nat; [done|].
    induction games as [|game games IH]; [done|]. by rewrite fmap_cons.
  - apply Forall_fmap, Forall_true. intros game. apply gated_fetch_single_game_rating.
  - apply Forall_fmap, Forall_true. intros game. apply no_raise_fetch_single_game_rating.
  - constructor.
Qed.

Lemma step_wf on_game_updated s c : wf s -> wf (step on_game_updated s c).
Proof.
  intros Hwf. unfold step.
  destruct c as [i|i r|].
  - destruct (tasks s !! i) as [[c h]|] eqn:Hi; [|done].
    destruct c; try done. destruct (permits s) as [|p] eqn:Hp; [done|].
    pose proof Hwf as (Hsum & Hgated & Hsafe & Hdone).
    pose proof (Forall_lookup_1 _ _ _ _ Hgated Hi) as Hg.
    pose proof (Forall_lookup_1 _ _ _ _ Hsafe Hi) as Hn.
    simpl in Hg, Hn. inv Hg. inv Hn.
    eapply advance_wf; [done|done|auto|auto|]. cbn [held]. lia.
  - destruct (tasks s !! i) as [[c h]|] eqn:Hi; [|done].
    destruct c; try done.
    pose proof Hwf as (Hsum & Hgated & Hsafe & Hdone).
    pose proof (Forall_lookup_1 _ _ _ _ Hgated Hi) as Hg.
    pose proof (Forall_lookup_1 _ _ _ _ Hsafe Hi) as Hn.
    simpl in Hg, Hn. inv Hg. inv Hn.
    eapply advance_wf; [done|done|auto|auto|]. cbn [held]. lia.
  - destruct (aborted s); [done|]. unfold next_completed.
    pose proof Hwf as (Hsum & Hgated & Hsafe & Hdone).
    destruct (completed s) as [|[g|e] rest] eqn:Hc; [done| |].
    + destruct (notify _ _ _) as [evs r']. inv Hdone. by unfold wf; simpl.
    + inv Hdone. by unfold wf; simpl.
Qed.

Lemma exec_wf on_game_updated sched s : wf s -> wf (exec on_game_updated sched s).
Proof.
  unfold exec. revert s. induction sched as [|c sched IH]; intros s Hwf; simpl; [done|].
  by apply IH, step_wf.
Qed.

Lemma step_trace on_game_updated s c :
  exists ext,
    trace (step on_game_updated s c) = trace s ++ ext /\
    Forall (fun e => is_snapshot e = false) ext.
Proof.
  assert (exists ext : list event,
             trace s = trace s ++ ext /\ Forall (fun e => is_snapshot e = false) ext) as Hsame.
  { exists []. by rewrite app_nil_r. }
  assert (forall i c p h, exists ext,
             trace (advance i c p h s) = trace s ++ ext /\
             Forall (fun e => is_snapshot e = false) ext) as Hadvance.
  { intros i k p h. unfold advance.
    pose proof (settle_trace i k p h (trace s)) as Hs.
    by destruct (settle i k p h (trace s)) as [[[c' p'] h'] tr']. }
  unfold step.
  destruct c as [i|i r|].
  - destruct (tasks s !! i) as [[c h]|]; [|done].
    destruct c; try done. destruct (permits s); [done|]. apply Hadvance.
  - destruct (tasks s !! i) as [[c h]|]; [|done].
    destruct c; try done.
  - destruct (aborted s); [done|]. unfold next_completed. destruct (completed s) as [|[g|e] rest]; [done| |done].
    destruct on_game_updated as [f|]; simpl.
    + exists [On_game_updated g]. by repeat constructor.
    + by exists [].
Qed.

Lemma exec_trace on_game_updated sched s :
  exists ext,
    trace (exec on_game_updated sched s) = trace s ++ ext /\
    Forall (fun e => is_snapshot e = false) ext.
Proof.
  unfold exec. revert s. induction sched as [|c sched IH]; intros s; simpl.
  - exists []. by rewrite app_nil_r.
  - destruct (IH (step on_game_updated s c)) as (ext2 & -> & H2).
    destruct (step_trace on_game_updated s c) as (ext1 & -> & H1).
    exists (ext1 ++ ext2). rewrite app_assoc. split; [done|]. by apply Forall_app.
Qed.

(** A batch stops early only when the callback of the caller raises. *)
Lemma step_aborted on_game_updated s c :
  wf s -> aborted s = None ->
  (forall f g, on_game_updated = Some f -> f g = Ok ()) ->
  aborted (step on_game_updated s c) = None.
Proof.
  intros (_ & _ & _ & Hdone) Hab Hcb. unfold step. rewrite Hab.
  destruct c as [i|i r|].
  - destruct (tasks s !! i) as [[c h]|]; [|done].
    destruct c; try done. destruct (permits s); [done|].
    unfold advance. by destruct (settle _ _ _ _ _) as [[[c' p'] h'] tr'].
  - destruct (tasks s !! i) as [[c h]|]; [|done].
    destruct c; try done.
    unfold advance. by destruct (settle _ _ _ _ _) as [[[c' p'] h'] tr'].
  - unfold next_completed. destruct (completed s) as [|[g|e] rest]; [done| |].
    + destruct on_game_updated as [f|]; simpl; [|done].
      by rewrite (Hcb f g).
    + inv Hdone. by destruct H1.
Qed.

Lemma exec_aborted on_game_updated sched s :
  wf s -> aborted s = None ->
  (forall f g, on_game_updated = Some f -> f g = Ok ()) ->
  aborted (exec on_game_updated sched s) = None.
Proof.
  unfold exec. revert s. induction sched as [|c sched IH]; intros s Hwf Hab Hcb; simpl.
  - done.
  - apply IH; [by apply step_wf|by apply step_aborted|done].
Qed.

(** Once the callback has raised, the batch has raised for good. *)
Lemma step_stopped on_game_updated s c e :
  aborted s = Some e -> aborted (step on_game_updated s c) = Some e.
Proof.
  intros Hab. unfold step. destruct c as [i|i r|].
  - destruct (tasks s !! i) as [[c h]|]; [|done].
    destruct c; try done. destruct (permits s); [done|].
    unfold advance. by destruct (settle _ _ _ _ _) as [[[c' p'] h'] tr'].
  - destruct (tasks s !! i) as [[c h]|]; [|done].
    destruct c; try done.
    unfold advance. by destruct (settle _ _ _ _ _) as [[[c' p'] h'] tr'].
  - by rewrite Hab.
Qed.

Lemma exec_stopped on_game_updated sched s e :
  aborted s = Some e -> aborted (exec on_game_updated sched s) = Some e.
Proof.
  unfold exec. revert s. induction sched as [|c sched IH]; intros s Hab; simpl; [done|].
  by apply IH, step_stopped.
Qed.

(** *** A batch can always be brought to its end *)

Lemma exec_app on_game_updated l1 l2 s :
  exec on_game_updated (l1 ++ l2) s = exec on_game_updated l2 (exec on_game_updated l1 s).
Proof. unfold exec. apply foldl_app. Qed.

Lemma exec_tasks_length on_game_updated sched s :
  length (tasks (exec on_game_updated sched s)) = length (tasks s).
Proof.
  unfold exec. revert s. induction sched as [|c sched IH]; intros s; simpl; [done|].
  rewrite IH. unfold step.
  destruct c as [i|i r|].
  - destruct (tasks s !! i) as [[c h]|]; [|done].
    destruct c; try done. destruct (permits s); [done|].
    unfold advance. destruct (settle _ _ _ _ _) as [[[c' p'] h'] tr']. simpl.
    apply length_insert.
  - destruct (tasks s !! i) as [[c h]|]; [|done].
    destruct c; try done.
    unfold advance. destruct (settle _ _ _ _ _) as [[[c' p'] h'] tr']. simpl.
    apply length_insert.
  - destruct (aborted s); [done|]. unfold next_completed. destruct (completed s) as [|[g|e] rest]; [done| |done].
    by destruct (notify _ _ _).
Qed.

Lemma resume_finished on_game_updated n i r s t :
  tasks s !! i = Some t -> is_Some (finished (code t)) ->
  exec on_game_updated (replicate n (Resume i r)) s = s.
Proof.
  intros Hi [x Hx]. unfold exec. induction n as [|n IH]; simpl; [done|].
  replace (step on_game_updated s (Resume i r)) with s; [done|].
  unfold step. rewrite Hi.
  destruct t as [c h]. by destruct c.
Qed.

(** Once a task is past the semaphore, answering its requests ends it, and
    the permit comes back. *)
Lemma run_task on_game_updated r0 (body : coro Game) :
  requests_only body ->
  forall n s i p h t,
    awaits_le n body ->
    tasks s !! i = Some t -> aborted s = None ->
    exists c2 r,
      let s2 := exec on_game_updated (replicate n (Resume i r0))
                     (advance i (releasing body) p h s) in
      finished c2 = Some r /\
      tasks s2 = <[i := {| code := c2; held := pred h |}]> (tasks s) /\
      permits s2 = S p /\ completed s2 = completed s ++ [r] /\
      consumed s2 = consumed s /\ ratings_map s2 = ratings_map s /\
      aborted s2 = None.
Proof.
  induction 1 as [a|e|url k Hk IH]; intros n s i p h t Hn Hi Hab.
  - exists (Ret a), (Ok a). cbv zeta.
    erewrite resume_finished; [by unfold advance|..].
    + unfold advance; simpl. apply list_lookup_insert_eq. by eapply lookup_lt_Some.
    + by eexists.
  - exists (Raise e), (Err e). cbv zeta.
    erewrite resume_finished; [by unfold advance|..].
    + unfold advance; simpl. apply list_lookup_insert_eq. by eapply lookup_lt_Some.
    + by eexists.
  - inversion Hn as [| |n' ? ? Hn'| | |]; subst.
    set (s1 := advance i (releasing (Await_get url k)) p h s).
    assert (tasks s1 !! i
            = Some {| code := Await_get url (fun r => releasing (k r)); held := h |}) as Hi1.
    { unfold s1, advance; simpl. apply list_lookup_insert_eq. by eapply lookup_lt_Some. }
    destruct (IH r0 n' s1 i p h _ (Hn' r0) Hi1 Hab) as (c2 & r & Hfin & Htasks & Hrest).
    exists c2, r. cbv zeta in *.
    replace (exec on_game_updated (replicate (S n') (Resume i r0)) s1)
      with (exec on_game_updated (replicate n' (Resume i r0))
              (advance i (releasing (k r0)) p h s1)).
    + split_and!; try apply Hrest; [done| |].
      * rewrite Htasks. unfold s1, advance; simpl. apply list_insert_insert_eq.
      * destruct Hrest as (_ & -> & _). unfold s1, advance; simpl.
        by rewrite app_nil_r.
    + unfold exec at 2. simpl. unfold step at 2.
      replace (aborted s1) with (@None exn) by done. by rewrite Hi1.
Qed.

Lemma fresh_fetch_single_game_rating game cache :
  fresh_task {| code := _fetch_single_game_rating game cache; held := 0 |}.
Proof.
  split; [done|]. eexists. split_and!; [| |reflexivity].
  - apply requests_only_bind; [|constructor].
    apply requests_only_try; [apply requests_only_get_game_average_rating|constructor].
  - apply (awaits_le_bind 2 0); [|constructor].
    apply awaits_le_try, awaits_get_game_average_rating.
Qed.

Lemma launch_idle games cache tr : idle 0 (launch games cache tr).
Proof.
  split_and!; try done; [apply launch_wf|].
  intros j t _ Hj. unfold launch in Hj; simpl in Hj.
  apply list_lookup_fmap_Some in Hj as (game & -> & _).
  apply fresh_fetch_single_game_rating.
Qed.

(** From an idle batch, the next task can be run to its end and its result
    consumed; the batch is idle again, or the callback has stopped it. *)
Lemma idle_next on_game_updated k s :
  idle k s -> (k < length (tasks s))%nat ->
  exists sched,
    let s' := exec on_game_updated sched s in
    is_Some (aborted s') \/ idle (S k) s'.
Proof.
  intros (Hwf & Hab & Hdone & Hcons & Hperm & Hfresh) Hk.
  destruct (lookup_lt_is_Some_2 (tasks s) k Hk) as [t Ht].
  destruct (Hfresh k t (le_n _) Ht) as (Hheld & body & Hbody & Hawaits & Hcode).
  destruct t as [c h]; simpl in Hheld, Hcode; subst c h.
  set (r0 := Err (ClientError EmptyString) : result Response).
  destruct (run_task on_game_updated r0 body Hbody 2 s k 19 1 _ Hawaits Ht Hab)
    as (c2 & r & Hfin & Htasks & Hp & Hcompleted & Hconsumed & _ & Hab2).
  cbv zeta in *.
  set (s2 := exec on_game_updated (replicate 2 (Resume k r0))
                  (advance k (releasing body) 19 1 s)) in *.
  assert (s2 = exec on_game_updated (Start k :: replicate 2 (Resume k r0)) s) as Hs2.
  { unfold s2, exec at 2. simpl foldl at 1. unfold step at 3.
    rewrite Ht, Hperm. done. }
  assert (wf s2) as Hwf2 by (rewrite Hs2; by apply exec_wf).
  destruct Hwf2 as (Hsum2 & Hgated2 & Hsafe2 & Hqueue2).
  rewrite Hcompleted, Hdone in Hqueue2. simpl in Hqueue2.
  apply Forall_singleton in Hqueue2 as [g ->].
  exists (Start k :: replicate 2 (Resume k r0) ++ [Next]).
  change (Start k :: replicate 2 (Resume k r0) ++ [Next])
    with ((Start k :: replicate 2 (Resume k r0)) ++ [Next]).
  rewrite exec_app, <- Hs2. unfold exec; simpl. unfold step.
  rewrite Hab2. unfold next_completed. rewrite Hcompleted, Hdone. simpl.
  destruct (notify on_game_updated On_game_updated g) as [evs [[]|e]] eqn:Hnotify;
    simpl; [right|left; by eexists].
  split_and!; simpl; try done.
  - by rewrite Hconsumed, Hcons.
  - intros j t Hj Hlookup. rewrite Htasks in Hlookup.
    rewrite list_lookup_insert_ne in Hlookup by lia.
    apply (Hfresh j t); [lia|done].
Qed.

Lemma idle_finish on_game_updated d k s :
  idle k s -> (k + d = length (tasks s))%nat ->
  exists sched,
    let s' := exec on_game_updated sched s in
    is_Some (aborted s') \/ (aborted s' = None /\ consumed s' = length (tasks s')).
Proof.
  revert k s. induction d as [|d IH]; intros k s Hidle Hk.
  - exists []. right. simpl. destruct Hidle as (_ & Hab & _ & Hcons & _). split; [done|lia].
  - destruct (idle_next on_game_updated k s Hidle ltac:(lia)) as (sched1 & Hnext).
    cbv zeta in Hnext. destruct Hnext as [Hstop|Hidle'].
    + exists sched1. by left.
    + destruct (IH (S k) _ Hidle') as (sched2 & Hend).
      { rewrite exec_tasks_length. lia. }
      exists (sched1 ++ sched2). by rewrite exec_app.
Qed.

(** Whatever the games, the cache and the callbacks are, there is a
    schedule under which the batch runs to its end: it returns or raises. *)
Lemma batch_can_finish data cache on_games_loaded on_game_updated :
  exists sched,
    result_of (_parse_steam_user_games data cache on_games_loaded on_game_updated sched)
    <> Running.
Proof.
  unfold _parse_steam_user_games.
  destruct (response_games data) as [games|]; [|by exists []].
  destruct (notify _ _ _) as [tr [[]|e]]; [|by exists []].
  destruct (idle_finish on_game_updated (length games) 0 (launch games cache tr))
    as (sched & Hend).
  { apply launch_idle. }
  { unfold launch; simpl. by rewrite length_fmap. }
  exists sched. cbv zeta in Hend.
  destruct Hend as [[e ->]|[-> ->]]; [done|].
  rewrite Nat.ltb_irrefl. unfold finalize.
  destruct (game_ratings_copy _ _); [|done]. by destruct (user_average_text _).
Qed.

Lemma finalize_trace cache l m tr :
  exists ext,
    events (finalize cache l m tr) = tr ++ ext /\
    Forall (fun e => is_snapshot e = false) ext.
Proof.
  unfold finalize. destruct (game_ratings_copy _ _); simpl.
  - destruct (user_average_text _); simpl; eexists; (split; [done|]); by repeat constructor.
  - exists []. by rewrite app_nil_r.
Qed.

Lemma held_in_flight (l : list task) :
  Forall (fun t => gated (held t) (code t)) l ->
  sum_list_with held l = length (filter (fun t => in_flight t) l).
Proof.
  induction 1 as [|t l Ht Hl IH]; [done|].
  rewrite filter_cons. simpl. apply gated_held in Ht.
  destruct (decide (in_flight t)) as [Hin|Hout]; unfold in_flight in *; simpl.
  - apply Is_true_true, Nat.ltb_lt in Hin. lia.
  - apply Is_true_false, Nat.ltb_ge in Hout. lia.
Qed.

Lemma awaiting_in_flight t :
  gated (held t) (code t) -> awaiting t -> in_flight t.
Proof.
  unfold awaiting, in_flight. destruct (code t); try done.
  intros Hg _. remember (held t) as h eqn:Hh. by inversion Hg.
Qed.

Lemma filter_length_le {A : Type} (P Q : A -> Prop)
    `{forall x, Decision (P x)} `{forall x, Decision (Q x)} (l : list A) :
  Forall (fun x => P x -> Q x) l ->
  (length (filter P l) <= length (filter Q l))%nat.
Proof.
  induction 1 as [|x l Hx Hl IH]; [done|].
  rewrite !filter_cons.
  destruct (decide (P x)), (decide (Q x)); simpl; try lia. tauto.
Qed.

Lemma replay_fetch game cache rs :
  replay (_fetch_single_game_rating game cache) rs
  = (fun r => Ok {| name := raw.name game;
                    rating := match r with Ok v => v | Err _ => JStr "pending" end;
                    playtime := raw.playtime_forever game;
                    app_id := str (raw.appid game) |})
    <$> replay (get_game_average_rating (str (raw.appid game)) cache) rs.
Proof.
  unfold _fetch_single_game_rating, async_with_semaphore. simpl.
  rewrite replay_releasing.
  rewrite (replay_bind_ret _ (fun rating =>
            {| name := raw.name game; rating := rating;
               playtime := raw.playtime_forever game;
               app_id := str (raw.appid game) |})).
  rewrite replay_try.
  by destruct (replay _ rs) as [[v|e]|].
Qed.

(** ** The claims on the resolver and on the batch *)

(** C3: with the snapshot callback given, the events of a batch start with
    its one call, on the list of every input game with its name, playtime
    and identifier and with the rating ['loading'], sorted by playtime
    descending with ties in input order; every request and every
    per-completion callback comes after it. *)
Theorem snapshot_first data cache f on_game_updated sched games :
  response_games data = Some games ->
  let snapshot := initial_game_ratings games in
  let placeholder game :=
    {| name := raw.name game;
       rating := JStr "loading";
       playtime := raw.playtime_forever game;
       app_id := str (raw.appid game) |} in
  (exists rest,
     events (_parse_steam_user_games data cache (Some f) on_game_updated sched)
     = On_games_loaded snapshot :: rest /\
     Forall (fun e => is_snapshot e = false) rest) /\
  snapshot ≡ₚ placeholder <$> games /\
  Forall (fun g => rating g = JStr "loading") snapshot /\
  descending snapshot /\
  (forall p, tied p snapshot
             = placeholder <$> filter (fun g => raw.playtime_forever g = p) games).
Proof.
  intros Hgames snapshot placeholder.
  assert (snapshot ≡ₚ placeholder <$> games) as Hperm by apply initial_perm.
  split_and!; [|done|rewrite Hperm; by apply Forall_fmap, Forall_true|..].
  - unfold _parse_steam_user_games. rewrite Hgames. simpl.
    destruct (f _) as [[]|e]; simpl; [|by exists []].
    destruct (exec_trace on_game_updated sched
                (launch games cache [On_games_loaded snapshot])) as (ext & Htr & Hext).
    simpl in Htr. fold snapshot. rewrite Htr.
    destruct (aborted _); simpl; [by exists ext|].
    destruct (_ <? _)%nat; simpl; [by exists ext|].
    destruct (finalize_trace cache snapshot
                (ratings_map (exec on_game_updated sched
                    (launch games cache [On_games_loaded snapshot])))
                (On_games_loaded snapshot :: ext)) as (ext' & -> & Hext').
    exists (ext ++ ext'). split; [done|]. by apply Forall_app.
  - apply list_sort_descending.
  - intros p. apply tied_initial.
Qed.

(** C4: resolving one game never raises, whatever the cache and the
    answers to the requests are: an error of the rating lookup becomes the
    rating [pending], and the batch is never stopped by a task. *)
Theorem resolver_never_raises game cache rs :
  let app := str (raw.appid game) in
  let resolved rating :=
    {| name := raw.name game; rating := rating;
       playtime := raw.playtime_forever game; app_id := app |} in
  no_raise (_fetch_single_game_rating game cache) /\
  (forall e, replay (_fetch_single_game_rating game cache) rs <> Some (Err e)) /\
  ((2 <= length rs)%nat ->
   exists g, replay (_fetch_single_game_rating game cache) rs = Some (Ok g)) /\
  (forall e, replay (get_game_average_rating app cache) rs = Some (Err e) ->
             replay (_fetch_single_game_rating game cache) rs
             = Some (Ok (resolved (JStr "pending")))) /\
  (forall v, replay (get_game_average_rating app cache) rs = Some (Ok v) ->
             replay (_fetch_single_game_rating game cache) rs = Some (Ok (resolved v))) /\
  (forall games sched tr on_game_updated,
     (forall callback g, on_game_updated = Some callback -> callback g = Ok ()) ->
     aborted (exec on_game_updated sched (launch games cache tr)) = None).
Proof.
  intros app resolved.
  pose proof (no_raise_fetch_single_game_rating game cache) as Hsafe.
  split_and!.
  - done.
  - intros e. by apply replay_no_raise.
  - intros Hrs.
    destruct (replay_total 2 (_fetch_single_game_rating game cache) rs) as [[g|e] Hg];
      [apply awaits_fetch_single_game_rating|done|by exists g|].
    by apply replay_no_raise in Hg.
  - intros e He. subst app. by rewrite replay_fetch, He.
  - intros v Hv. subst app. by rewrite replay_fetch, Hv.
  - intros games sched tr on_game_updated Hcb.
    apply exec_aborted; [apply launch_wf|done|done].
Qed.

(** C5: when the game cache is fresh and holds an entry for the identifier,
    the rating lookup is the entry's rating at once: it returns without a
    request to the native check or to the tier lookup. *)
Theorem cache_short_circuit X cache g rs :
  has_game_cache cache = true ->
  get_game_data cache X = Ok (Some g) ->
  get_game_average_rating X cache = Ret (rating g) /\
  replay (get_game_average_rating X cache) rs = Some (Ok (rating g)) /\
  calls (get_game_average_rating X cache) rs = [].
Proof.
  intros Hfresh Hentry.
  assert (get_game_average_rating X cache = Ret (rating g)) as ->; [|done].
  unfold get_game_average_rating. by rewrite Hfresh, Hentry.
Qed.

Lemma gate_ops_releasing {A : Type} (body : coro A) rs :
  requests_only body ->
  gate_ops (releasing body) rs
  = match replay (releasing body) rs with
    | Some _ => [Released]
    | None => []
    end.
Proof.
  intros Hbody. revert rs. induction Hbody as [a|e|url k Hk IH]; intros rs; simpl; [done..|].
  destruct rs as [|r rs]; [done|]. apply IH.
Qed.

(** C6: at every point of every schedule of a batch, the tasks holding a
    permit and the permits left add up to 20, so at most 20 tasks are in
    flight; a task waits for an answer only while it holds a permit, so at
    most 20 requests are out; a task that has ended holds none; and every
    path of a task takes the permit once and gives it back: whatever the
    game, the cache and the answers, a task that has ended, by the cache,
    by the native check or by the tier lookup, has acquired the semaphore
    once and released it once, in this order, and a task that has not
    ended has acquired it and not released it. *)
Theorem concurrency_bound games cache on_game_updated sched tr :
  let s := exec on_game_updated sched (launch games cache tr) in
  (permits s + length (filter (fun t => in_flight t) (tasks s))
   = MAX_CONCURRENT_REQUESTS)%nat /\
  (length (filter (fun t => in_flight t) (tasks s)) <= 20)%nat /\
  (length (filter (fun t => awaiting t) (tasks s)) <= 20)%nat /\
  Forall (fun t => awaiting t -> in_flight t) (tasks s) /\
  Forall (fun t => is_Some (finished (code t)) -> held t = 0%nat) (tasks s) /\
  (forall game, gated 0 (_fetch_single_game_rating game cache)) /\
  (forall game rs,
     gate_ops (_fetch_single_game_rating game cache) rs
     = match replay (_fetch_single_game_rating game cache) rs with
       | Some _ => [Acquired; Released]
       | None => [Acquired]
       end).
Proof.
  intros s.
  destruct (exec_wf on_game_updated sched _ (launch_wf games cache tr))
    as (Hsum & Hgated & _ & _).
  fold s in Hsum, Hgated.
  assert (Forall (fun t => awaiting t -> in_flight t) (tasks s)) as Himp.
  { eapply Forall_impl; [exact Hgated|]. intros t. apply awaiting_in_flight. }
  rewrite (held_in_flight _ Hgated) in Hsum.
  pose proof (filter_length_le _ _ _ Himp) as Hle.
  unfold MAX_CONCURRENT_REQUESTS in *.
  split_and!; [done|lia|lia|done| |intros game; apply gated_fetch_single_game_rating|].
  - eapply Forall_impl; [exact Hgated|]. simpl. intros t Ht [r Hr].
    remember (held t) as h eqn:Hh. clear Hh.
    destruct (code t); try done; by inversion Ht.
  - intros game rs.
    destruct (fresh_fetch_single_game_rating game cache) as (_ & body & Hbody & _ & Hcode).
    simpl in Hcode. rewrite Hcode. simpl. rewrite (gate_ops_releasing body rs Hbody).
    by destruct (replay (releasing body) rs).
Qed.

(** ** The aggregate *)








(** ** Anti-cheat refresh *)

(** C9 (as amended): with a fresh anti-cheat cache the cache is returned
    without a request and without an update; otherwise a status other than
    success, or a payload that does not parse, makes the function return
    [None] with no update and no exception; an update of the cache is made
    only after an answer with the success status and a payload that parses,
    and the cache is returned after it. *)
Theorem anti_cheat_refresh cache rs :
  (has_anticheat_cache cache = true ->
   get_anti_cheat_data cache = Ret (Some cache)) /\
  (has_anticheat_cache cache = false ->
   forall resp rest,
     rs = Ok resp :: rest ->
     status resp <> HTTP_SUCCESS \/ json_loads (data resp) = None ->
     replay (get_anti_cheat_data cache) rs = Some (Ok None) /\
     updates (get_anti_cheat_data cache) rs = []) /\
  (updates (get_anti_cheat_data cache) rs <> [] ->
   has_anticheat_cache cache = false /\
   exists resp rest payload l,
     rs = Ok resp :: rest /\
     status resp = HTTP_SUCCESS /\
     json_loads (data resp) = Some payload /\
     updates (get_anti_cheat_data cache) rs = [Anti_cheat_list l] /\
     replay (get_anti_cheat_data cache) rs = Some (Ok (Some cache))).
Proof.
  unfold get_anti_cheat_data. split_and!.
  - by intros ->.
  - intros -> resp rest -> Hbad. simpl.
    destruct (Z.eqb_spec (status resp) HTTP_SUCCESS) as [Hok|Hko]; simpl; [|done].
    destruct Hbad as [Hbad| ->]; done.
  - destruct (has_anticheat_cache cache); [done|].
    destruct rs as [|[resp|e] rest]; simpl; [done| |done].
    destruct (Z.eqb_spec (status resp) HTTP_SUCCESS) as [Hok|Hko]; simpl; [|done].
    destruct (json_loads (data resp)) as [payload|] eqn:Hload; simpl; [|done].
    destruct (py_iter payload) as [games|]; simpl; [|done].
    destruct (deserialize games) as [l|]; simpl; [|done].
    intros _. split; [done|]. by exists resp, rest, payload, l.
Qed.

(** * Further properties *)

(** ** Requests of the resolver *)

Lemma replay_bind {A B : Type} (c : coro A) (f : A -> coro B) rs :
  replay (c ≫= f) rs
  = match replay c rs with
    | Some (Ok a) => replay (f a) (leftover c rs)
    | Some (Err e) => Some (Err e)
    | None => None
    end.
Proof.
  revert rs. induction c; intros rs; simpl; auto.
  destruct rs; simpl; auto.
Qed.

Lemma calls_bind {A B : Type} (c : coro A) (f : A -> coro B) rs :
  calls (c ≫= f) rs
  = calls c rs ++ match replay c rs with
                  | Some (Ok a) => calls (f a) (leftover c rs)
                  | _ => []
                  end.
Proof.
  revert rs. induction c; intros rs; simpl; auto.
  destruct rs; simpl; [done|]. by f_equal.
Qed.


Lemma calls_lift {A : Type} (r : result A) rs : calls (lift r) rs = [].
Proof. by destruct r. Qed.

Lemma leftover_lift {A : Type} (r : result A) rs : leftover (lift r) rs = rs.
Proof. by destruct r. Qed.

(** The native check is one request, whatever the answer is. *)
Lemma calls_check_game_is_native app_id rs :
  calls (check_game_is_native app_id) rs = [appdetails_url app_id].
Proof.
  unfold check_game_is_native. simpl. f_equal.
  destruct rs as [|[resp|e] rs]; simpl; [done| |done].
  repeat (first [ rewrite calls_bind, calls_lift; simpl
                | rewrite calls_lift
                | match goal with
                  | |- context [if ?b then _ else _] => destruct b; simpl
                  | |- context [match replay (lift ?r) ?l with _ => _ end] =>
                      destruct r; simpl
                  end ]); done.
Qed.

Lemma leftover_check_game_is_native app_id r rs :
  leftover (check_game_is_native app_id) (r :: rs) = rs.
Proof.
  unfold check_game_is_native. simpl.
  destruct r as [resp|e]; simpl; [|done].
  destruct (negb _); simpl; [done|].
  destruct (loads _) as [json_data|]; simpl; [|done].
  destruct (py_contains _ _) as [present|]; simpl; [|done].
  destruct (negb present); simpl; [done|].
  destruct (py_getitem json_data _) as [game_data|]; simpl; [|done].
  destruct (py_get game_data _ _) as [success|]; simpl; [|done].
  destruct (negb (truthy success)); simpl; [done|].
  destruct (py_getitem game_data _) as [d|]; simpl; [|done].
  destruct (py_getitem d _) as [platforms|]; simpl; [|done].
  apply leftover_lift.
Qed.

(** X1: a native check that is answered with a status other than success
    says "not native": the body is not parsed and nothing is raised. *)
Theorem native_check_soft_failure app_id resp rs :
  status resp <> HTTP_SUCCESS ->
  replay (check_game_is_native app_id) (Ok resp :: rs) = Some (Ok (JBool false)).
Proof.
  intros Hstatus. unfold check_game_is_native. simpl.
  by destruct (Z.eqb_spec (status resp) HTTP_SUCCESS).
Qed.

(** X2: on a successful answer whose payload is a dictionary, the native
    check says "not native" when the game is not in the payload; for an
    entry of the game it gives the falsy [success] back without looking at
    the platforms; and for a truthy [success] it gives the [linux] flag of
    the platforms, [False] when the flag is missing. *)
Theorem native_check_decision app_id resp rs payload :
  status resp = HTTP_SUCCESS ->
  json_loads (data resp) = Some (JDict payload) ->
  let verdict := replay (check_game_is_native app_id) (Ok resp :: rs) in
  (assoc app_id payload = None -> verdict = Some (Ok (JBool false))) /\
  (forall entry,
     assoc app_id payload = Some (JDict entry) ->
     let success := default (JBool false) (assoc "success" entry) in
     (truthy success = false -> verdict = Some (Ok success)) /\
     (truthy success = true ->
      forall d platforms,
        assoc "data" entry = Some (JDict d) ->
        assoc "platforms" d = Some (JDict platforms) ->
        verdict = Some (Ok (default (JBool false) (assoc "linux" platforms))))).
Proof.
  intros Hstatus Hload verdict. subst verdict.
  unfold check_game_is_native, loads. simpl.
  rewrite Hstatus, Z.eqb_refl, Hload. simpl. split.
  - by intros ->.
  - intros entry Hentry. rewrite Hentry. simpl.
    destruct (assoc "success" entry) as [v|]; simpl;
      (split; [intros Hv; by rewrite ?Hv|]);
      intros Hv d platforms Hd Hp; rewrite ?Hv; [|done]; simpl.
    rewrite Hd. simpl. by rewrite Hp.
Qed.

(** X3: a cache that is not fresh is not read, and a fresh cache without
    the game changes nothing: in both cases the lookup is the one of any
    other such cache. *)
Theorem silent_cache_is_ignored app_id cache cache' :
  has_game_cache cache = false \/ get_game_data cache app_id = Ok None ->
  has_game_cache cache' = false \/ get_game_data cache' app_id = Ok None ->
  get_game_average_rating app_id cache = get_game_average_rating app_id cache'.
Proof.
  assert (forall c, has_game_cache c = false \/ get_game_data c app_id = Ok None ->
            get_game_average_rating app_id c
            = (native ← check_game_is_native app_id;
               if truthy native then mret (JStr "native") else
               resp ← async_get (protondb_url app_id);
               if negb (status resp =? HTTP_SUCCESS) then mret (JStr "pending") else
               json_data ← lift (loads (data resp));
               lift (py_get json_data "tier" (JStr "pending")))) as Hsilent.
  { intros c Hc. unfold get_game_average_rating.
    destruct (has_game_cache c); [|done].
    destruct Hc as [|Hc]; [done|]. by rewrite Hc. }
  intros H H'. by rewrite (Hsilent cache), (Hsilent cache').
Qed.

(** X4: the rating lookup asks Steam before ProtonDB and never asks twice:
    its requests are none, the native check alone, or the native check and
    then the tier lookup. *)
Theorem rating_lookup_requests app_id cache rs :
  calls (get_game_average_rating app_id cache) rs = [] \/
  calls (get_game_average_rating app_id cache) rs = [appdetails_url app_id] \/
  calls (get_game_average_rating app_id cache) rs
  = [appdetails_url app_id; protondb_url app_id].
Proof.
  assert (forall k : json -> coro json,
            (forall v l, calls (k v) l = [] \/ calls (k v) l = [protondb_url app_id]) ->
            calls (check_game_is_native app_id ≫= k) rs = [appdetails_url app_id] \/
            calls (check_game_is_native app_id ≫= k) rs
            = [appdetails_url app_id; protondb_url app_id]) as Huncached.
  { intros k Hk. rewrite calls_bind, calls_check_game_is_native.
    destruct (replay (check_game_is_native app_id) rs) as [[v|e]|]; [|by left..].
    destruct (Hk v (leftover (check_game_is_native app_id) rs)) as [H|H];
      rewrite H; auto. }
  assert (forall v l,
            calls (if truthy v then mret (JStr "native") else
                   resp ← async_get (protondb_url app_id);
                   if negb (status resp =? HTTP_SUCCESS) then mret (JStr "pending") else
                   json_data ← lift (loads (data resp));
                   lift (py_get json_data "tier" (JStr "pending"))) l = [] \/
            calls (if truthy v then mret (JStr "native") else
                   resp ← async_get (protondb_url app_id);
                   if negb (status resp =? HTTP_SUCCESS) then mret (JStr "pending") else
                   json_data ← lift (loads (data resp));
                   lift (py_get json_data "tier" (JStr "pending"))) l
            = [protondb_url app_id]) as Hrest.
  { intros v l. destruct (truthy v); [by left|]. right. simpl. f_equal.
    destruct l as [|[resp|e] l]; simpl; [done| |done].
    destruct (negb _); simpl; [done|].
    destruct (loads _); simpl; [|done]. apply calls_lift. }
  unfold get_game_average_rating.
  destruct (has_game_cache cache); [|right; by apply Huncached].
  destruct (get_game_data cache app_id) as [[g|]|e]; simpl; [by left| |by left].
  right. by apply Huncached.
Qed.

(** X5: what the lookup of a game the cache does not answer comes to: a
    truthy verdict of the native check makes it [native] without a request
    to ProtonDB; after a falsy verdict a tier lookup answered with a status
    other than success makes it [pending] and a successful one gives the
    [tier] of the payload, [pending] when the payload has none. *)
Theorem rating_lookup_outcome app_id cache r1 rs verdict :
  has_game_cache cache = false \/ get_game_data cache app_id = Ok None ->
  replay (check_game_is_native app_id) [r1] = Some (Ok verdict) ->
  (truthy verdict = true ->
   replay (get_game_average_rating app_id cache) (r1 :: rs) = Some (Ok (JStr "native")) /\
   calls (get_game_average_rating app_id cache) (r1 :: rs) = [appdetails_url app_id]) /\
  (truthy verdict = false ->
   forall resp rs',
     rs = Ok resp :: rs' ->
     (status resp <> HTTP_SUCCESS ->
      replay (get_game_average_rating app_id cache) (r1 :: rs)
      = Some (Ok (JStr "pending"))) /\
     (forall payload,
        status resp = HTTP_SUCCESS ->
        json_loads (data resp) = Some (JDict payload) ->
        replay (get_game_average_rating app_id cache) (r1 :: rs)
        = Some (Ok (default (JStr "pending") (assoc "tier" payload))))).
Proof.
  intros Hsilent Hverdict.
  assert (replay (check_game_is_native app_id) (r1 :: rs) = Some (Ok verdict)) as Hv.
  { revert Hverdict. unfold check_game_is_native. simpl.
    destruct r1 as [resp|e]; simpl; [|done].
    repeat (first [ rewrite replay_bind; simpl
                  | match goal with
                    | |- context [if ?b then _ else _] => destruct b; simpl
                    | |- context [lift ?r] => destruct r; simpl
                    end ]); done. }
  assert (get_game_average_rating app_id cache
          = (native ← check_game_is_native app_id;
             if truthy native then mret (JStr "native") else
             resp ← async_get (protondb_url app_id);
             if negb (status resp =? HTTP_SUCCESS) then mret (JStr "pending") else
             json_data ← lift (loads (data resp));
             lift (py_get json_data "tier" (JStr "pending")))) as ->.
  { unfold get_game_average_rating.
    destruct (has_game_cache cache); [|done].
    destruct Hsilent as [|Hc]; [done|]. by rewrite Hc. }
  split.
  - intros Htruthy. split.
    + by rewrite replay_bind, Hv, Htruthy.
    + by rewrite calls_bind, calls_check_game_is_native, Hv, Htruthy.
  - intros Hfalsy resp rs' -> .
    rewrite replay_bind, Hv, Hfalsy, leftover_check_game_is_native. simpl. split.
    + intros Hstatus. by destruct (Z.eqb_spec (status resp) HTTP_SUCCESS).
    + intros payload Hstatus Hload. rewrite Hstatus, Z.eqb_refl. simpl.
      unfold loads. by rewrite Hload.
Qed.

(** ** What running the tasks keeps *)

Lemma settle_closed Q i c p h tr :
  closed Q -> Q c -> Q (settle i c p h tr).1.1.1.
Proof.
  intros (Hacq & Hrel & Hupd & Hget). revert p h tr.
  induction c as [| |url k IH|k IH|k IH|u k IH]; intros p h tr Hc; simpl; try done.
  - by apply IH, Hrel.
  - by eapply IH, Hupd.
Qed.

Lemma advance_tasks i c p h s :
  tasks (advance i c p h s)
  = <[i := {| code := (settle i c p h (trace s)).1.1.1;
              held := (settle i c p h (trace s)).1.2 |}]> (tasks s).
Proof. unfold advance. by destruct (settle _ _ _ _ _) as [[[c' p'] h'] tr']. Qed.

Lemma step_closed (Q : nat -> coro Game -> Prop) on_game_updated s c :
  (forall i, closed (Q i)) ->
  (forall i t, tasks s !! i = Some t -> Q i (code t)) ->
  forall i t, tasks (step on_game_updated s c) !! i = Some t -> Q i (code t).
Proof.
  intros Hclosed Hs.
  assert (forall j k p h t0,
            tasks s !! j = Some t0 -> Q j k ->
            forall i t, tasks (advance j k p h s) !! i = Some t -> Q i (code t))
    as Hadvance.
  { intros j k p h t0 Hj Hk i t. rewrite advance_tasks.
    destruct (decide (j = i)) as [->|Hne].
    - rewrite list_lookup_insert_eq by (by eapply lookup_lt_Some).
      intros [= <-]. simpl. by apply settle_closed.
    - rewrite list_lookup_insert_ne by done. apply Hs. }
  unfold step.
  destruct c as [j|j r|].
  - destruct (tasks s !! j) as [[k h]|] eqn:Hj; [|done].
    destruct k; try done. destruct (permits s); [done|].
    eapply Hadvance; [done|].
    destruct (Hclosed j) as (Hacq & _). apply Hacq, (Hs j _ Hj).
  - destruct (tasks s !! j) as [[k h]|] eqn:Hj; [|done].
    destruct k; try done.
    eapply Hadvance; [done|].
    destruct (Hclosed j) as (_ & _ & _ & Hget). eapply Hget, (Hs j _ Hj).
  - destruct (aborted s); [done|]. unfold next_completed. destruct (completed s) as [|[g|e] rest]; [done| |done].
    by destruct (notify _ _ _).
Qed.

Lemma exec_closed (Q : nat -> coro Game -> Prop) on_game_updated sched s :
  (forall i, closed (Q i)) ->
  (forall i t, tasks s !! i = Some t -> Q i (code t)) ->
  forall i t, tasks (exec on_game_updated sched s) !! i = Some t -> Q i (code t).
Proof.
  intros Hclosed. unfold exec. revert s.
  induction sched as [|c sched IH]; intros s Hs; simpl; [done|].
  apply IH. by apply step_closed.
Qed.

Lemma closed_returns P : closed (returns P).
Proof. split_and!; intros; by inv H. Qed.

Lemma closed_update_free : closed update_free.
Proof.
  split_and!; intros; try by inv H.
Qed.

Lemma returns_bind {A B : Type} (P : B -> Prop) (c : coro A) (f : A -> coro B) :
  (forall a, returns P (f a)) -> returns P (c ≫= f).
Proof. intros Hf. induction c; simpl; try constructor; auto. Qed.

Lemma returns_releasing {A : Type} (P : A -> Prop) (c : coro A) :
  returns P c -> returns P (releasing c).
Proof. induction 1; simpl; repeat constructor; auto. Qed.

Lemma returns_fetch_single_game_rating game cache :
  returns (resolves game) (_fetch_single_game_rating game cache).
Proof.
  unfold _fetch_single_game_rating, async_with_semaphore.
  constructor. apply returns_releasing, returns_bind.
  intros v. by constructor.
Qed.

Lemma update_free_releasing {A : Type} (c : coro A) :
  requests_only c -> update_free (releasing c).
Proof. induction 1; simpl; repeat constructor; auto. Qed.

Lemma update_free_fetch_single_game_rating game cache :
  update_free (_fetch_single_game_rating game cache).
Proof.
  destruct (fresh_fetch_single_game_rating game cache) as (_ & body & Hbody & _ & Hcode).
  simpl in Hcode. rewrite Hcode. constructor. by apply update_free_releasing.
Qed.

Lemma streamed_app tr tr' : streamed (tr ++ tr') = streamed tr ++ streamed tr'.
Proof. apply omap_app. Qed.

Lemma requests_app tr tr' : requests (tr ++ tr') = requests tr ++ requests tr'.
Proof. apply omap_app. Qed.

Lemma cache_updates_app tr tr' :
  cache_updates (tr ++ tr') = cache_updates tr ++ cache_updates tr'.
Proof. apply omap_app. Qed.

Lemma settle_streamed i c p h tr :
  streamed (settle i c p h tr).2 = streamed tr.
Proof.
  revert p h tr. induction c; intros p h tr; simpl; auto.
  - by rewrite streamed_app, app_nil_r.
  - by rewrite IHc, streamed_app, app_nil_r.
Qed.

Lemma settle_cache_updates i c p h tr :
  update_free c -> cache_updates (settle i c p h tr).2 = cache_updates tr.
Proof.
  intros Hc. revert p h tr. induction Hc; intros p h tr; simpl; auto.
  by rewrite cache_updates_app, app_nil_r.
Qed.

Lemma advance_trace i c p h s :
  trace (advance i c p h s) = (settle i c p h (trace s)).2.
Proof. unfold advance. by destruct (settle _ _ _ _ _) as [[[c' p'] h'] tr']. Qed.

(** The tasks make requests; they never write to the cache. *)
Lemma exec_cache_updates on_game_updated sched s :
  (forall i t, tasks s !! i = Some t -> update_free (code t)) ->
  cache_updates (trace (exec on_game_updated sched s)) = cache_updates (trace s).
Proof.
  unfold exec. revert s. induction sched as [|c sched IH]; intros s Hs; simpl; [done|].
  rewrite IH.
  - unfold step.
    destruct c as [j|j r|].
    + destruct (tasks s !! j) as [[k h]|] eqn:Hj; [|done].
      destruct k; try done. destruct (permits s); [done|].
      rewrite advance_trace. apply settle_cache_updates.
      specialize (Hs j _ Hj). by inv Hs.
    + destruct (tasks s !! j) as [[k h]|] eqn:Hj; [|done].
      destruct k; try done.
      rewrite advance_trace. apply settle_cache_updates.
      specialize (Hs j _ Hj). by inv Hs.
    + destruct (aborted s); [done|]. unfold next_completed. destruct (completed s) as [|[g|e] rest]; [done| |done].
      destruct on_game_updated; simpl; [|by rewrite app_nil_r].
      by rewrite cache_updates_app, app_nil_r.
  - apply (step_closed (fun _ => update_free)); [|done].
    intros _. apply closed_update_free.
Qed.

(** ** The books of the [as_completed] loop *)

Lemma omap_insert_unreturned {A B : Type} (f : A -> option B) (l : list A) i x y :
  l !! i = Some x -> f x = None ->
  omap f (<[i := y]> l) ≡ₚ option_list (f y) ++ omap f l.
Proof.
  revert i. induction l as [|x0 l IH]; intros [|i] Hi Hx; simpl in *; try done.
  - injection Hi as ->. rewrite Hx. by destruct (f y).
  - destruct (f x0) as [b|]; [|by apply IH].
    rewrite (IH i Hi Hx). apply Permutation_middle.
Qed.

Lemma advance_accounted on_game_updated i c p h s t cs :
  accounted on_game_updated s cs ->
  tasks s !! i = Some t -> returned t = None ->
  accounted on_game_updated (advance i c p h s) cs.
Proof.
  intros (Hmap & Hstream & Hperm & Hlen) Hi Ht.
  unfold accounted. rewrite advance_tasks, advance_trace, settle_streamed.
  unfold advance. destruct (settle i c p h (trace s)) as [[[c' p'] h'] tr']. simpl.
  split_and!; [done..| |done].
  rewrite (omap_insert_unreturned returned _ i t _ Hi Ht), omap_app.
  unfold returned at 1. simpl.
  replace (omap queued match finished c' with Some r => [r] | None => [] end)
    with (option_list match c' with Ret g => Some g | _ => None end)
    by (by destruct c').
  rewrite app_assoc, Hperm. apply Permutation_app_comm.
Qed.

Lemma step_accounted on_game_updated s c cs :
  wf s -> accounted on_game_updated s cs ->
  exists cs', accounted on_game_updated (step on_game_updated s c) cs'.
Proof.
  intros (_ & _ & _ & Hqueue) Hs.
  unfold step.
  destruct c as [j|j r|].
  - destruct (tasks s !! j) as [[k h]|] eqn:Hj; [|by exists cs].
    destruct k; try by exists cs. destruct (permits s); [by exists cs|].
    exists cs. by eapply advance_accounted.
  - destruct (tasks s !! j) as [[k h]|] eqn:Hj; [|by exists cs].
    destruct k; try by exists cs.
    exists cs. by eapply advance_accounted.
  - destruct (aborted s); [by exists cs|]. unfold next_completed.
    destruct (completed s) as [|[g|e] rest] eqn:Hc; [by exists cs| |].
    + exists (cs ++ [g]). destruct Hs as (Hmap & Hstream & Hperm & Hlen).
      rewrite Hc in Hperm. simpl in Hperm.
      unfold accounted, notify. destruct on_game_updated as [f|]; simpl;
        (split_and!;
         [by rewrite Hmap; unfold map_of; rewrite foldl_snoc
         |rewrite ?streamed_app, ?app_nil_r, ?Hstream; done
         |by rewrite <- Hperm, <- app_assoc
         |rewrite length_app; simpl; lia]).
    + inv Hqueue. by destruct H1.
Qed.

Lemma exec_accounted on_game_updated sched s cs :
  wf s -> accounted on_game_updated s cs ->
  exists cs', accounted on_game_updated (exec on_game_updated sched s) cs'.
Proof.
  unfold exec. revert s cs.
  induction sched as [|c sched IH]; intros s cs Hwf Hs; simpl; [by exists cs|].
  destruct (step_accounted on_game_updated s c cs Hwf Hs) as (cs' & Hs').
  eapply IH; [by apply step_wf|done].
Qed.

Lemma launch_accounted on_game_updated games cache tr :
  streamed tr = [] -> accounted on_game_updated (launch games cache tr) [].
Proof.
  intros Htr. unfold accounted, launch; simpl. split_and!; [done| |  |done].
  - rewrite Htr. by destruct on_game_updated.
  - induction games as [|game games IH]; [done|]. by rewrite fmap_cons.
Qed.

Lemma length_omap {A B : Type} (f : A -> option B) (l : list A) :
  (length (omap f l) <= length l)%nat.
Proof.
  induction l as [|x l IH]; [done|].
  change (omap f (x :: l))
    with (match f x with Some y => y :: omap f l | None => omap f l end).
  destruct (f x); cbn [length]; lia.
Qed.

Lemma omap_all {A B : Type} (f : A -> option B) (l : list A) :
  (length l <= length (omap f l))%nat -> Forall2 (fun x y => f x = Some y) l (omap f l).
Proof.
  induction l as [|x l IH]; [constructor|].
  pose proof (length_omap f l) as Hle.
  change (omap f (x :: l))
    with (match f x with Some y => y :: omap f l | None => omap f l end).
  destruct (f x) as [y|] eqn:Hx; cbn [length]; intros Hlen; [|lia].
  constructor; [done|]. apply IH. lia.
Qed.

Lemma map_of_lookup (cs : list Game) g :
  NoDup (app_id <$> cs) -> g ∈ cs -> map_of cs !! app_id g = Some (rating g).
Proof.
  unfold map_of. induction cs as [|g' cs IH] using rev_ind; [by inversion 2|].
  rewrite fmap_app, foldl_snoc. simpl. intros Hnd Hin.
  apply NoDup_app in Hnd as (Hnd & Hfresh & _).
  apply elem_of_app in Hin as [Hin|Hin].
  - rewrite lookup_insert_ne; [by apply IH|].
    intros Heq. apply (Hfresh (app_id g)).
    + apply list_elem_of_fmap. by exists g.
    + rewrite <- Heq. simpl. left.
  - apply list_elem_of_singleton in Hin as ->. apply lookup_insert_eq.
Qed.

(** What the books say when every result has come out of the loop: every
    task has returned, the results are one resolved game per input game,
    and they are the games that came out of the loop. *)
Lemma accounted_at_end on_game_updated games cache tr sched cs :
  let s := exec on_game_updated sched (launch games cache tr) in
  accounted on_game_updated s cs ->
  (length (tasks s) <= consumed s)%nat ->
  exists results,
    Forall2 resolves games results /\ cs ≡ₚ results.
Proof.
  intros s (Hmap & Hstream & Hperm & Hlen) Hend.
  assert (length (tasks s) = length games) as Htasks.
  { unfold s. rewrite exec_tasks_length. unfold launch; simpl. apply length_fmap. }
  pose proof (length_omap returned (tasks s)) as Hle.
  pose proof (Permutation_length Hperm) as Hcount. rewrite length_app in Hcount.
  assert (omap queued (completed s) = []) as Hqueue.
  { apply length_zero_iff_nil. lia. }
  rewrite Hqueue, app_nil_r in Hperm.
  exists (omap returned (tasks s)). split; [|done].
  pose proof (omap_all returned (tasks s) ltac:(lia)) as Hall.
  apply Forall2_same_length_lookup. split.
  { apply Forall2_length in Hall. lia. }
  intros i game g Hgame Hg.
  destruct (lookup_lt_is_Some_2 (tasks s) i) as [t Ht].
  { apply lookup_lt_Some in Hgame. lia. }
  pose proof (Forall2_lookup_lr _ _ _ _ _ _ Hall Ht Hg) as Hret.
  assert (returns (resolves game) (code t)) as Hreturns.
  { apply (exec_closed (fun i c => forall game, games !! i = Some game ->
                                      returns (resolves game) c)
             on_game_updated sched (launch games cache tr)) with i; try done.
    - intros j. destruct (closed_returns (resolves game)) as (H1 & H2 & H3 & H4).
      split_and!; intros; match goal with H : forall _, _ -> returns _ _ |- _ =>
        specialize (H _ ltac:(eassumption)); inv H; auto end.
    - intros j t0 Hj game0 Hgame0. unfold launch in Hj; simpl in Hj.
      rewrite list_lookup_fmap, Hgame0 in Hj. injection Hj as <-. simpl.
      apply returns_fetch_single_game_rating. }
  unfold returned in Hret. destruct (code t); try done.
  injection Hret as ->. by inv Hreturns.
Qed.

Lemma Forall2_resolves_ids games results :
  Forall2 resolves games results ->
  app_id <$> results = str <$> (raw.appid <$> games).
Proof.
  induction 1 as [|game g games results (_ & _ & Hid) _ IH]; [done|].
  rewrite !fmap_cons. by f_equal.
Qed.

Lemma rated_results (m : gmap string json) games results :
  Forall2 resolves games results ->
  (forall g, g ∈ results -> m !! app_id g = Some (rating g)) ->
  rated m <$> (loading <$> games) = results.
Proof.
  induction 1 as [|game g games results Hg _ IH]; intros Hlookup; [done|].
  rewrite !fmap_cons. f_equal.
  - destruct Hg as (Hname & Hplay & Hid). unfold rated, loading. simpl.
    rewrite <- Hid, (Hlookup g) by left. simpl.
    rewrite <- Hname, <- Hplay. by destruct g.
  - apply IH. intros g' Hg'. apply Hlookup. by right.
Qed.

(** When every result has come out of the loop, the games that came out
    are one resolved game per input game; with distinct identifiers the
    ratings put into the snapshot make exactly these games. *)
Lemma loop_end on_game_updated games cache tr sched :
  let s := exec on_game_updated sched (launch games cache tr) in
  streamed tr = [] ->
  (length (tasks s) <= consumed s)%nat ->
  exists results,
    Forall2 resolves games results /\
    (forall f, on_game_updated = Some f -> streamed (trace s) ≡ₚ results) /\
    (NoDup (raw.appid <$> games) ->
     rated (ratings_map s) <$> (loading <$> games) = results).
Proof.
  intros s Htr Hend.
  destruct (exec_accounted on_game_updated sched _ []
              (launch_wf games cache tr) (launch_accounted on_game_updated games cache tr Htr))
    as (cs & Hacc).
  destruct (accounted_at_end on_game_updated games cache tr sched cs Hacc Hend)
    as (results & Hres & Hperm).
  fold s in Hacc. destruct Hacc as (Hmap & Hstream & _ & _).
  exists results. split_and!; [done| |].
  - intros f ->. by rewrite Hstream.
  - intros Hnd.
    assert (NoDup (app_id <$> cs)) as Hids.
    { rewrite Hperm, (Forall2_resolves_ids _ _ Hres).
      apply NoDup_fmap; [|done]. intros n n'. apply str_inj. }
    rewrite Hmap. clear Hmap Hstream.
    assert (forall g, g ∈ results -> map_of cs !! app_id g = Some (rating g)) as Hlookup.
    { intros g Hg. apply map_of_lookup; [done|]. by rewrite Hperm. }
    by apply rated_results.
Qed.

(** ** The games that are streamed and the list that is returned *)

(** X6: when a batch with the per-completion callback returns, the callback
    has been given, in some order, exactly one resolved game for every game
    of the input: the input's name, playtime and identifier, with a
    rating. *)
Theorem streamed_once_per_game data cache on_games_loaded f sched games r :
  response_games data = Some games ->
  result_of (_parse_steam_user_games data cache on_games_loaded (Some f) sched)
  = Returned r ->
  exists results,
    Forall2 resolves games results /\
    streamed (events (_parse_steam_user_games data cache on_games_loaded (Some f) sched))
    ≡ₚ results.
Proof.
  unfold _parse_steam_user_games. intros ->.
  destruct (notify on_games_loaded _ _) as [tr [[]|e]] eqn:Hnotify; [|done].
  assert (streamed tr = []) as Htr.
  { change tr with (tr, @Ok unit ()).1. rewrite <- Hnotify. by destruct on_games_loaded. }
  destruct (aborted _); [done|].
  destruct (Nat.ltb_spec (consumed (exec (Some f) sched (launch games cache tr)))
              (length (tasks (exec (Some f) sched (launch games cache tr)))))
    as [|Hend]; [done|].
  destruct (loop_end (Some f) games cache tr sched Htr Hend) as (results & Hres & Hstream & _).
  unfold finalize. destruct (game_ratings_copy _ _); [|done].
  destruct (user_average_text _); [|done]. simpl. intros _.
  exists results. split; [done|].
  rewrite streamed_app, app_nil_r. by eapply Hstream.
Qed.

(** X7: when the identifiers of the input are distinct, the list a batch
    returns is, up to order, the list of the games its tasks resolved: one
    per input game, each with the rating that was given to the
    per-completion callback. *)
Theorem returned_list_is_streamed data cache on_games_loaded on_game_updated sched games r :
  response_games data = Some games ->
  NoDup (raw.appid <$> games) ->
  result_of (_parse_steam_user_games data cache on_games_loaded on_game_updated sched)
  = Returned r ->
  exists results,
    Forall2 resolves games results /\
    game_ratings r ≡ₚ results /\
    (forall f,
       on_game_updated = Some f ->
       streamed (events (_parse_steam_user_games data cache on_games_loaded
                            on_game_updated sched))
       ≡ₚ game_ratings r).
Proof.
  unfold _parse_steam_user_games. intros -> Hnd.
  destruct (notify on_games_loaded _ _) as [tr [[]|e]] eqn:Hnotify; [|done].
  assert (streamed tr = []) as Htr.
  { change tr with (tr, @Ok unit ()).1. rewrite <- Hnotify. by destruct on_games_loaded. }
  destruct (aborted _); [done|].
  destruct (Nat.ltb_spec (consumed (exec on_game_updated sched (launch games cache tr)))
              (length (tasks (exec on_game_updated sched (launch games cache tr)))))
    as [|Hend]; [done|].
  destruct (loop_end on_game_updated games cache tr sched Htr Hend)
    as (results & Hres & Hstream & Hrated).
  unfold finalize. destruct (game_ratings_copy _ _); [|done].
  destruct (user_average_text _); [|done]. simpl. intros [= <-]. simpl.
  assert (final_game_ratings (initial_game_ratings games)
            (ratings_map (exec on_game_updated sched (launch games cache tr)))
          ≡ₚ results) as Hfinal.
  { rewrite final_perm, initial_perm. by rewrite (Hrated Hnd). }
  exists results. split_and!; [done..|].
  intros f Hf. rewrite streamed_app, app_nil_r, Hfinal. by eapply Hstream.
Qed.

(** ** The requests and the cache updates of a batch *)

Lemma settle_owes i c p h tr n :
  awaits_le n c ->
  exists o,
    owes o (settle i c p h tr).1.1.1 /\
    (length (requests (settle i c p h tr).2) + o <= length (requests tr) + n)%nat.
Proof.
  intros Hc. revert p h tr.
  induction Hc as [n a|n e|n url k Hk IH|n k Hk IH|n k Hk IH|n u k Hk IH];
    intros p h tr; simpl.
  - exists n. split; [constructor|lia].
  - exists n. split; [constructor|lia].
  - exists n. split; [done|]. rewrite requests_app, length_app. simpl. lia.
  - exists n. split; [by constructor|lia].
  - apply IH.
  - destruct (IH p h (tr ++ [Cache_updated u])) as (o & Ho & Hle).
    exists o. split; [done|]. by rewrite requests_app, app_nil_r in Hle.
Qed.

Lemma sum_list_insert (os : list nat) i o o' :
  os !! i = Some o -> (sum_list (<[i := o']> os) + o = sum_list os + o')%nat.
Proof.
  revert i. induction os as [|x os IH]; intros [|i] Hi; simpl in *; try done.
  - injection Hi as ->. lia.
  - specialize (IH i Hi). lia.
Qed.

Lemma step_budget on_game_updated s c os N :
  Forall2 (fun t o => owes o (code t)) (tasks s) os ->
  (length (requests (trace s)) + sum_list os <= N)%nat ->
  exists os',
    Forall2 (fun t o => owes o (code t)) (tasks (step on_game_updated s c)) os' /\
    (length (requests (trace (step on_game_updated s c))) + sum_list os' <= N)%nat.
Proof.
  intros Hos HN.
  assert (forall j k p h t0 o0,
            tasks s !! j = Some t0 -> os !! j = Some o0 -> awaits_le o0 k ->
            exists os',
              Forall2 (fun t o => owes o (code t)) (tasks (advance j k p h s)) os' /\
              (length (requests (trace (advance j k p h s))) + sum_list os' <= N)%nat)
    as Hadvance.
  { intros j k p h t0 o0 Hj Ho Hk.
    destruct (settle_owes j k p h (trace s) o0 Hk) as (o & Howes & Hle).
    exists (<[j := o]> os). rewrite advance_tasks, advance_trace. split.
    - by apply Forall2_insert.
    - pose proof (sum_list_insert os j o0 o Ho). lia. }
  unfold step.
  destruct c as [j|j r|].
  - destruct (tasks s !! j) as [[k h]|] eqn:Hj; [|by exists os].
    destruct k; try by exists os. destruct (permits s); [by exists os|].
    destruct (Forall2_lookup_l _ _ _ _ _ Hos Hj) as (o0 & Ho & Howes).
    simpl in Howes. inv Howes. by eapply Hadvance.
  - destruct (tasks s !! j) as [[k h]|] eqn:Hj; [|by exists os].
    destruct k; try by exists os.
    destruct (Forall2_lookup_l _ _ _ _ _ Hos Hj) as (o0 & Ho & Howes).
    simpl in Howes. by eapply Hadvance.
  - destruct (aborted s); [by exists os|]. unfold next_completed. destruct (completed s) as [|[g|e] rest]; [by exists os| |by exists os].
    exists os. destruct on_game_updated; simpl; (split; [done|]);
      by rewrite requests_app, app_nil_r.
Qed.

Lemma exec_budget on_game_updated sched s os N :
  Forall2 (fun t o => owes o (code t)) (tasks s) os ->
  (length (requests (trace s)) + sum_list os <= N)%nat ->
  (length (requests (trace (exec on_game_updated sched s))) <= N)%nat.
Proof.
  unfold exec. revert s os.
  induction sched as [|c sched IH]; intros s os Hos HN; simpl; [lia|].
  destruct (step_budget on_game_updated s c os N Hos HN) as (os' & Hos' & HN').
  by eapply IH.
Qed.

Lemma owes_fetch_single_game_rating game cache :
  owes (if cache_hit cache game then 0 else 2) (_fetch_single_game_rating game cache).
Proof.
  unfold cache_hit. simpl.
  destruct (has_game_cache cache) eqn:Hfresh; simpl;
    [|apply awaits_fetch_single_game_rating].
  destruct (get_game_data cache (str (raw.appid game))) as [[g|]|e] eqn:Hentry;
    try apply awaits_fetch_single_game_rating.
  unfold _fetch_single_game_rating, async_with_semaphore, get_game_average_rating.
  rewrite Hfresh, Hentry. simpl. repeat constructor.
Qed.

Lemma launch_budget games cache tr :
  exists os,
    Forall2 (fun t o => owes o (code t)) (tasks (launch games cache tr)) os /\
    sum_list os = (2 * length (filter (fun game => cache_hit cache game = false) games))%nat.
Proof.
  unfold launch; simpl. induction games as [|game games (os & Hos & Hsum)].
  - by exists [].
  - exists ((if cache_hit cache game then 0 else 2)%nat :: os). rewrite fmap_cons. split.
    + constructor; [apply owes_fetch_single_game_rating|done].
    + rewrite filter_cons. simpl. rewrite Hsum.
      destruct (cache_hit cache game); simpl; [done|lia].
Qed.

Lemma finalize_events cache l m tr :
  events (finalize cache l m tr) = tr \/
  events (finalize cache l m tr)
  = tr ++ [Cache_updated (Game_list (final_game_ratings l m))].
Proof.
  unfold finalize. destruct (game_ratings_copy _ _); [|by left].
  destruct (user_average_text _); by right.
Qed.

Lemma notify_loaded_quiet on_games_loaded (l : list Game) :
  requests (notify on_games_loaded On_games_loaded l).1 = [] /\
  cache_updates (notify on_games_loaded On_games_loaded l).1 = [] /\
  streamed (notify on_games_loaded On_games_loaded l).1 = [].
Proof. by destruct on_games_loaded. Qed.

(** X8: whatever the schedule and however far the batch gets, it makes at
    most two requests for each game that the fresh cache does not answer,
    and so none at all when the cache answers for every game. *)
Theorem requests_bounded data cache on_games_loaded on_game_updated sched games :
  response_games data = Some games ->
  (length (requests (events (_parse_steam_user_games data cache on_games_loaded
                               on_game_updated sched)))
   <= 2 * length (filter (fun game => cache_hit cache game = false) games))%nat.
Proof.
  unfold _parse_steam_user_games. intros ->.
  pose proof (notify_loaded_quiet on_games_loaded (initial_game_ratings games))
    as (Hquiet & _).
  destruct (notify on_games_loaded _ _) as [tr [[]|e]]; simpl in Hquiet;
    [|simpl; rewrite Hquiet; simpl; lia].
  destruct (launch_budget games cache tr) as (os & Hos & Hsum).
  pose proof (exec_budget on_game_updated sched (launch games cache tr) os
                (2 * length (filter (fun game => cache_hit cache game = false) games))
                Hos) as Hbound.
  simpl in Hbound. rewrite Hquiet in Hbound. specialize (Hbound ltac:(simpl; lia)).
  destruct (aborted _); [done|].
  destruct (_ <? _)%nat; [done|].
  destruct (finalize_events cache (initial_game_ratings games)
              (ratings_map (exec on_game_updated sched (launch games cache tr)))
              (trace (exec on_game_updated sched (launch games cache tr)))) as [-> | ->];
    [done|].
  by rewrite requests_app, app_nil_r.
Qed.

(** X9: a batch writes to the cache at most once, and never while its tasks
    run; when it returns, the write is its last event and carries the list
    it returns. *)
Theorem cache_written_once data cache on_games_loaded on_game_updated sched :
  let batch_run :=
    _parse_steam_user_games data cache on_games_loaded on_game_updated sched in
  (length (cache_updates (events batch_run)) <= 1)%nat /\
  (result_of batch_run = Running -> cache_updates (events batch_run) = []) /\
  (forall r,
     result_of batch_run = Returned r ->
     exists tr,
       events batch_run = tr ++ [Cache_updated (Game_list (game_ratings r))] /\
       cache_updates tr = []).
Proof.
  unfold _parse_steam_user_games.
  destruct (response_games data) as [games|]; [|simpl; split_and!; [lia|done|done]].
  pose proof (notify_loaded_quiet on_games_loaded (initial_game_ratings games))
    as (_ & Hquiet & _).
  destruct (notify on_games_loaded _ _) as [tr [[]|e]]; simpl in Hquiet;
    [|simpl; rewrite Hquiet; simpl; split_and!; [lia|done|done]].
  pose proof (exec_cache_updates on_game_updated sched (launch games cache tr)) as Hexec.
  simpl in Hexec. rewrite Hquiet in Hexec.
  assert (cache_updates (trace (exec on_game_updated sched (launch games cache tr))) = [])
    as Hnone.
  { apply Hexec. intros i t Hi. rewrite list_lookup_fmap in Hi.
    destruct (games !! i); [|done]. injection Hi as <-. simpl.
    apply update_free_fetch_single_game_rating. }
  destruct (aborted _); [simpl; rewrite Hnone; simpl; split_and!; [lia|done|done]|].
  destruct (_ <? _)%nat; [simpl; rewrite Hnone; simpl; split_and!; [lia|done|done]|].
  unfold finalize. destruct (game_ratings_copy _ _);
    [|simpl; rewrite Hnone; simpl; split_and!; [lia|done|done]].
  destruct (user_average_text _); simpl;
    rewrite cache_updates_app, Hnone; simpl; (split_and!; [lia|done|]); [|done].
  intros r [= <-]. by eexists.
Qed.

(** ** The list a batch builds *)

Lemma cache_updated_elem u tr : Cache_updated u ∈ tr -> u ∈ cache_updates tr.
Proof.
  intros Hin. unfold cache_updates. apply list_elem_of_omap.
  by exists (Cache_updated u).
Qed.

(** The list given to [update_cache] is the list of lines 339-350. *)
Lemma committed_list data cache on_games_loaded on_game_updated sched l :
  Cache_updated (Game_list l)
    ∈ events (_parse_steam_user_games data cache on_games_loaded on_game_updated sched) ->
  exists games m,
    response_games data = Some games /\
    l = final_game_ratings (initial_game_ratings games) m.
Proof.
  unfold _parse_steam_user_games.
  destruct (response_games data) as [games|]; [|by intros ?%elem_of_nil].
  pose proof (notify_loaded_quiet on_games_loaded (initial_game_ratings games))
    as (_ & Hquiet & _).
  destruct (notify on_games_loaded _ _) as [tr [[]|e]]; simpl in Hquiet.
  2:{ simpl. intros Hin%cache_updated_elem. rewrite Hquiet in Hin. by inv Hin. }
  pose proof (exec_cache_updates on_game_updated sched (launch games cache tr)) as Hexec.
  simpl in Hexec. rewrite Hquiet in Hexec.
  assert (cache_updates (trace (exec on_game_updated sched (launch games cache tr))) = [])
    as Hnone.
  { apply Hexec. intros i t Hi. rewrite list_lookup_fmap in Hi.
    destruct (games !! i); [|done]. injection Hi as <-. simpl.
    apply update_free_fetch_single_game_rating. }
  assert (forall tl, tl = trace (exec on_game_updated sched (launch games cache tr)) ->
                     Cache_updated (Game_list l) ∈ tl -> False) as Hnot.
  { intros tl -> Hin%cache_updated_elem. rewrite Hnone in Hin. by inv Hin. }
  destruct (aborted _); [simpl; intros Hin; by destruct (Hnot _ eq_refl Hin)|].
  destruct (_ <? _)%nat; [simpl; intros Hin; by destruct (Hnot _ eq_refl Hin)|].
  destruct (finalize_events cache (initial_game_ratings games)
              (ratings_map (exec on_game_updated sched (launch games cache tr)))
              (trace (exec on_game_updated sched (launch games cache tr))))
    as [-> | ->]; [intros Hin; by destruct (Hnot _ eq_refl Hin)|].
  intros [Hin|Hin]%elem_of_app; [by destruct (Hnot _ eq_refl Hin)|].
  apply list_elem_of_singleton in Hin. injection Hin as ->. eauto.
Qed.

Lemma returned_is_committed data cache on_games_loaded on_game_updated sched r :
  result_of (_parse_steam_user_games data cache on_games_loaded on_game_updated sched)
  = Returned r ->
  Cache_updated (Game_list (game_ratings r))
    ∈ events (_parse_steam_user_games data cache on_games_loaded on_game_updated sched).
Proof.
  unfold _parse_steam_user_games.
  destruct (response_games data) as [games|]; [|discriminate].
  destruct (notify _ _ _) as [tr [[]|]]; [|discriminate].
  destruct (aborted _); [discriminate|].
  destruct (_ <? _)%nat; [discriminate|].
  unfold finalize.
  destruct (game_ratings_copy _ _); [|discriminate].
  destruct (user_average_text _) as [text|]; [|discriminate].
  simpl. intros [= <-]. simpl. apply elem_of_app. right. constructor.
Qed.


(** C10 (as amended): among the games of one playtime, the snapshot keeps
    the order of the input and the list built at lines 339-350, which is
    the list given to [update_cache] and the list a batch returns, has the
    reverse of it.  The two orders differ exactly when the sequence of the
    tied games is not its own reverse; they do when the tied games are two
    or more and pairwise distinct. *)
Theorem ties_reversed data cache on_games_loaded on_game_updated sched l :
  let batch_run :=
    _parse_steam_user_games data cache on_games_loaded on_game_updated sched in
  Cache_updated (Game_list l) ∈ events batch_run \/
  (exists r, result_of batch_run = Returned r /\ game_ratings r = l) ->
  exists games m,
    response_games data = Some games /\
    forall p,
      let same := filter (fun g => raw.playtime_forever g = p) games in
      tied p (initial_game_ratings games) = loading <$> same /\
      tied p l = reverse (rated m <$> (loading <$> same)) /\
      app_id <$> tied p l = reverse (app_id <$> tied p (initial_game_ratings games)) /\
      (app_id <$> tied p l <> app_id <$> tied p (initial_game_ratings games)
       <-> reverse (raw.appid <$> same) <> raw.appid <$> same) /\
      (NoDup (raw.appid <$> same) -> (2 <= length same)%nat ->
       app_id <$> tied p l <> app_id <$> tied p (initial_game_ratings games)).
Proof.
  intros batch_run Hbuilt.
  assert (Cache_updated (Game_list l) ∈ events batch_run) as Hcommitted.
  { destruct Hbuilt as [Hin|(r & Hrun & <-)]; [done|]. by apply returned_is_committed. }
  destruct (committed_list _ _ _ _ _ _ Hcommitted) as (games & m & Hgames & Hfinal).
  exists games, m. split; [done|]. intros p same.
  assert (app_id <$> tied p (initial_game_ratings games) = str <$> (raw.appid <$> same))
    as Hids.
  { rewrite tied_initial, <- !list_fmap_compose. by apply list_fmap_ext. }
  assert (app_id <$> tied p l
          = reverse (app_id <$> tied p (initial_game_ratings games))) as Hrev.
  { rewrite Hfinal, tied_final, fmap_reverse. f_equal.
    rewrite <- list_fmap_compose. by apply list_fmap_ext. }
  split_and!.
  - apply tied_initial.
  - by rewrite Hfinal, tied_final, tied_initial.
  - done.
  - rewrite Hrev, Hids, <- fmap_reverse. split.
    + intros Hne Heq. apply Hne. by rewrite Heq.
    + intros Hne Heq. apply Hne.
      assert (Inj (=) (=) str) as Hinj by (intros n n'; apply str_inj).
      by apply (inj (fmap str)).
  - intros Hnd Hlen. rewrite Hrev. apply rev_ne_of_nodup.
    + rewrite Hids. apply NoDup_fmap; [|done]. intros n n'. apply str_inj.
    + by rewrite tied_initial, !length_fmap.
Qed.

(** ** The end of a batch *)

Lemma exec_no_tasks on_game_updated sched s :
  tasks s = [] -> completed s = [] -> exec on_game_updated sched s = s.
Proof.
  intros Htasks Hdone. unfold exec.
  induction sched as [|c sched IH]; simpl; [done|].
  replace (step on_game_updated s c) with s; [done|].
  unfold step. destruct c; rewrite ?Htasks; simpl; try done.
  destruct (aborted s); [done|]. unfold next_completed. by rewrite Hdone.
Qed.

(** X10: for an empty games list the batch shows the empty snapshot, makes
    no request, writes the empty list to the cache and only then fails on
    the average, with [ZeroDivisionError]. *)
Theorem empty_library data cache on_games_loaded on_game_updated sched :
  response_games data = Some [] ->
  (forall f, on_games_loaded = Some f -> f [] = Ok ()) ->
  let batch_run :=
    _parse_steam_user_games data cache on_games_loaded on_game_updated sched in
  result_of batch_run = Raised ZeroDivisionError /\
  requests (events batch_run) = [] /\
  streamed (events batch_run) = [] /\
  cache_updates (events batch_run) = [Game_list []].
Proof.
  intros Hgames Hcallback. unfold _parse_steam_user_games. rewrite Hgames.
  change (initial_game_ratings []) with (@nil Game).
  destruct on_games_loaded as [f|]; simpl; [rewrite (Hcallback f eq_refl)|];
    rewrite exec_no_tasks by done; simpl; by split_and!.
Qed.

Lemma json_eqb_refl (a : json) : json_eqb a a = true.
Proof.
  revert a. fix json_eqb_refl 1.
  intros a. destruct a as [| b | n | s | l | d]; simpl.
  - done.
  - by destruct b.
  - apply Z.eqb_refl.
  - apply String.eqb_refl.
  - induction l as [|x l IH]; [done|].
    by rewrite (json_eqb_refl x), IH.
  - induction d as [|[k x] d IH]; [done|].
    by rewrite String.eqb_refl, (json_eqb_refl x), IH.
Qed.

Lemma Game_eqb_refl g : Game_eqb g g = true.
Proof.
  unfold Game_eqb. by rewrite !String.eqb_refl, json_eqb_refl, Z.eqb_refl.
Qed.

Lemma Game_eqb_app_id g g' : Game_eqb g g' = true -> app_id g = app_id g'.
Proof.
  unfold Game_eqb. intros H. apply andb_prop in H as [_ H]. by apply String.eqb_eq.
Qed.

Lemma list_remove_first x pre l :
  Forall (fun y => Game_eqb x y = false) pre ->
  list_remove x (pre ++ x :: l) = Ok (pre ++ l).
Proof.
  induction 1 as [|y pre Hy _ IH]; simpl.
  - by rewrite Game_eqb_refl.
  - by rewrite Hy, IH.
Qed.

Lemma games_to_remove_cached cache l :
  Forall (fun g => exists entry, get_game_data cache (app_id g) = Ok entry) l ->
  games_to_remove cache l = Ok (filter (fun g => cached cache g = true) l).
Proof.
  induction 1 as [|g l [entry Hg] _ IH]; [done|].
  simpl. rewrite Hg, IH. simpl. rewrite filter_cons.
  destruct (decide (cached cache g = true)) as [Hc|Hc];
    unfold cached in Hc; rewrite Hg in Hc; by destruct entry.
Qed.

Lemma remove_cached cache pre l :
  Forall (fun g => cached cache g = false) pre ->
  foldl (fun copy game => l' ← copy; list_remove game l') (Ok (pre ++ l))
        (filter (fun g => cached cache g = true) l)
  = Ok (pre ++ filter (fun g => cached cache g = false) l).
Proof.
  revert pre. induction l as [|g l IH]; intros pre Hpre; [done|].
  rewrite !filter_cons. destruct (cached cache g) eqn:Hg; simpl.
  - rewrite list_remove_first; [by apply IH|].
    eapply Forall_impl; [exact Hpre|]. intros g' Hg'. simpl in Hg'.
    destruct (Game_eqb g g') eqn:Heq; [|done].
    apply Game_eqb_app_id in Heq. unfold cached in *. rewrite Heq in Hg. congruence.
  - replace (pre ++ g :: l) with ((pre ++ [g]) ++ l) by (by rewrite <- app_assoc).
    rewrite IH; [by rewrite <- app_assoc|].
    apply Forall_app. split; [done|]. by constructor.
Qed.


(** X11: when the lookups of the cache do not raise, the copy that lines
    354-364 make by removing the cached games one by one is the list
    without the games the cache holds, in the order of the list; the
    removal never fails. *)
Theorem copy_without_cached cache game_ratings :
  Forall (fun g => exists entry, get_game_data cache (app_id g) = Ok entry) game_ratings ->
  game_ratings_copy cache game_ratings
  = Ok (filter (fun g => cached cache g = false) game_ratings).
Proof.
  intros Hcache. unfold game_ratings_copy.
  rewrite (games_to_remove_cached cache game_ratings Hcache). simpl.
  apply (remove_cached cache []). constructor.
Qed.





(** ** The anti-cheat list *)

Lemma AntiCheatStatus_ok v st :
  AntiCheatStatus v = Ok st -> v = JStr st /\ st ∈ AntiCheatStatus_values.
Proof.
  unfold AntiCheatStatus. destruct v as [| | |s| |]; try done.
  destruct (existsb (String.eqb s) AntiCheatStatus_values) eqn:Hs; [|done].
  intros [= <-]. split; [done|].
  apply existsb_exists in Hs as (s' & Hin & Heq).
  apply String.eqb_eq in Heq as ->. by apply list_elem_of_In.
Qed.

(** X13: when the anti-cheat list deserializes, the records are those of
    the entries that name a Steam identifier, in the order of the list and
    one for one: the identifier is the entry's [steam] store id and the
    status is the entry's [status], a value of the enumeration.  The
    entries without a Steam identifier are left out, whatever their status
    is. *)
Theorem deserialize_keeps_steam_entries anti_cheat_data records :
  deserialize anti_cheat_data = Ok records ->
  Forall2 (fun game record =>
             exists store_ids,
               py_getitem game "storeIds" = Ok store_ids /\
               py_getitem store_ids "steam" = Ok (anticheat.app_id record) /\
               py_getitem game "status" = Ok (JStr (anticheat.status record)) /\
               anticheat.status record ∈ AntiCheatStatus_values)
          (filter (fun game => has_steam game = true) anti_cheat_data) records.
Proof.
  revert records. induction anti_cheat_data as [|game rest IH]; intros records; simpl.
  - intros [= <-]. constructor.
  - destruct (py_getitem game "storeIds") as [store_ids|] eqn:Hids; simpl; [|done].
    destruct (py_contains "steam" store_ids) as [[]|] eqn:Hsteam; simpl; [| |done].
    + assert (has_steam game = true) as Hkeep
        by (unfold has_steam; by rewrite Hids, Hsteam).
      rewrite filter_cons_True by done.
      destruct (py_getitem store_ids "steam") as [steam|] eqn:Hid; simpl; [|done].
      destruct (py_getitem game "status") as [st|] eqn:Hst; simpl; [|done].
      destruct (AntiCheatStatus st) as [st'|] eqn:Hvalue; simpl; [|done].
      destruct (deserialize rest) as [rest'|]; simpl; [|done].
      intros [= <-]. apply AntiCheatStatus_ok in Hvalue as [-> Hin].
      constructor; [|by apply IH]. by exists store_ids.
    + assert (has_steam game <> true) as Hskip
        by (unfold has_steam; by rewrite Hids, Hsteam).
      rewrite filter_cons_False by done. apply IH.
Qed.

Lemma deserialize_app before rest records :
  deserialize before = Ok records ->
  deserialize (before ++ rest)
  = match deserialize rest with
    | Ok records' => Ok (records ++ records')
    | Err e => Err e
    end.
Proof.
  revert records. induction before as [|game before IH]; intros records; simpl.
  - intros [= <-]. by destruct (deserialize rest).
  - destruct (py_getitem game "storeIds") as [store_ids|]; simpl; [|done].
    destruct (py_contains "steam" store_ids) as [[]|]; simpl; [| |done].
    + destruct (py_getitem store_ids "steam") as [steam|]; simpl; [|done].
      destruct (py_getitem game "status") as [st|]; simpl; [|done].
      destruct (AntiCheatStatus st) as [st'|]; simpl; [|done].
      destruct (deserialize before) as [records0|]; simpl; [|done].
      intros [= <-]. rewrite (IH records0 eq_refl).
      by destruct (deserialize rest).
    + apply IH.
Qed.

(** X14: the refresh of the anti-cheat data does not catch what its
    request or the entries of the list raise.  With a stale cache, the
    exception of the transport, the [TypeError] of a payload that is not
    iterable and the exception of the first entry that cannot be read (no
    [storeIds], no [status], a status that is not of the enumeration:
    [ValueError]) are raised to the caller.  When it raises, one request
    was made and the cache has not been updated. *)
Theorem anti_cheat_failure_leaves_cache cache rs :
  has_anticheat_cache cache = false ->
  let refresh := get_anti_cheat_data cache in
  (forall e rest, rs = Err e :: rest -> replay refresh rs = Some (Err e)) /\
  (forall resp rest payload,
     rs = Ok resp :: rest -> status resp = HTTP_SUCCESS ->
     json_loads (data resp) = Some payload ->
     (forall e, py_iter payload = Err e -> replay refresh rs = Some (Err e)) /\
     (forall games e,
        py_iter payload = Ok games -> deserialize games = Err e ->
        replay refresh rs = Some (Err e))) /\
  (forall before game after records,
     deserialize before = Ok records ->
     (forall e, py_getitem game "storeIds" = Err e ->
                deserialize (before ++ game :: after) = Err e) /\
     (forall store_ids steam,
        py_getitem game "storeIds" = Ok store_ids ->
        py_contains "steam" store_ids = Ok true ->
        py_getitem store_ids "steam" = Ok steam ->
        (forall e, py_getitem game "status" = Err e ->
                   deserialize (before ++ game :: after) = Err e) /\
        (forall st, py_getitem game "status" = Ok (JStr st) ->
                    st ∉ AntiCheatStatus_values ->
                    deserialize (before ++ game :: after) = Err ValueError))) /\
  (forall e, replay refresh rs = Some (Err e) ->
             updates refresh rs = [] /\ calls refresh rs = [anti_cheat_url]).
Proof.
  intros Hstale refresh. subst refresh. unfold get_anti_cheat_data. rewrite Hstale.
  split_and!.
  - by intros e rest ->.
  - intros resp rest payload -> Hstatus Hload. simpl.
    rewrite Hstatus, Z.eqb_refl, Hload. simpl. split.
    + by intros e ->.
    + intros games e -> Herr. simpl. by rewrite Herr.
  - intros before game after records Hbefore.
    rewrite (deserialize_app before (game :: after) records Hbefore). simpl. split.
    + by intros e ->.
    + intros store_ids steam Hids Hsteam Hid.
      rewrite Hids. simpl. rewrite Hsteam. simpl. rewrite Hid. simpl. split.
      * by intros e ->.
      * intros st -> Hst. simpl.
        destruct (existsb (String.eqb st) AntiCheatStatus_values) eqn:Hin; [|done].
        apply existsb_exists in Hin as (st' & Hin & ->%String.eqb_eq).
        by apply list_elem_of_In in Hin.
  - intros e.
    destruct rs as [|[resp|e'] rs]; simpl; [done| |done].
    destruct (negb _); simpl; [done|].
    destruct (json_loads (data resp)) as [payload|]; simpl; [|done].
    destruct (py_iter payload) as [games|]; simpl; [|done].
    by destruct (deserialize games).
Qed.

(** ** Identity resolution *)

Lemma calls_resolve_vanity_name api_key name rs :
  calls (resolve_vanity_name api_key name) rs = [vanity_url api_key name].
Proof.
  unfold resolve_vanity_name. simpl. f_equal.
  destruct rs as [|[resp|e] rs]; simpl; [done| |done].
  repeat (first [ rewrite calls_bind, calls_lift; simpl
                | rewrite calls_lift
                | match goal with
                  | |- context [if ?b then _ else _] => destruct b; simpl
                  | |- context [match replay (lift ?r) ?l with _ => _ end] =>
                      destruct r; simpl
                  end ]); done.
Qed.


(** X15: the resolution of a vanity name is one request.  An answer with
    the forbidden status raises [UnauthorizedError] whatever its body is;
    any other status is not looked at, the body alone decides: a
    dictionary without [response], or whose [success] is not 1, raises
    [InvalidIDError], and with [success] 1 the [steamid] is returned. *)
Theorem vanity_resolution api_key name resp rs :
  let resolution := replay (resolve_vanity_name api_key name) (Ok resp :: rs) in
  calls (resolve_vanity_name api_key name) (Ok resp :: rs) = [vanity_url api_key name] /\
  (status resp = HTTP_FORBIDDEN -> resolution = Some (Ok (Raises UnauthorizedError))) /\
  (status resp <> HTTP_FORBIDDEN ->
   forall payload,
     json_loads (data resp) = Some (JDict payload) ->
     (assoc "response" payload = None ->
      resolution = Some (Ok (Raises InvalidIDError))) /\
     (forall response success,
        assoc "response" payload = Some (JDict response) ->
        assoc "success" response = Some success ->
        (differs_from_1 success = true ->
         resolution = Some (Ok (Raises InvalidIDError))) /\
        (differs_from_1 success = false ->
         forall steamid,
           assoc "steamid" response = Some steamid ->
           resolution = Some (Ok (Gives steamid))))).
Proof.
  intros resolution. subst resolution. split_and!.
  - apply calls_resolve_vanity_name.
  - intros Hstatus. unfold resolve_vanity_name. simpl.
    by rewrite Hstatus, Z.eqb_refl.
  - intros Hstatus payload Hload. unfold resolve_vanity_name, loads. simpl.
    destruct (Z.eqb_spec (status resp) HTTP_FORBIDDEN) as [|_]; [done|].
    rewrite Hload. simpl. split.
    + by intros ->.
    + intros response success Hresponse Hsuccess. rewrite Hresponse. simpl.
      rewrite Hsuccess. simpl. split.
      * by intros ->.
      * intros -> steamid Hsteamid. by rewrite Hsteamid.
Qed.



(** X18: once the owned games are asked for, the answer decides before the
    batch starts: the bad-request status raises [InvalidIDError], the
    unauthorised status raises [UnauthorizedError], in both cases whatever
    the body is and without a callback being called; a body that does not
    parse raises the error of the parser; otherwise the batch runs on the
    payload. *)
Theorem owned_games_answer api_key user_id cache on_games_loaded on_game_updated
    rs sched id resp rest :
  replay (steam_id api_key user_id) rs = Some (Ok (Gives id)) ->
  leftover (steam_id api_key user_id) rs = Ok resp :: rest ->
  let outcome :=
    get_steam_user_data api_key user_id cache on_games_loaded on_game_updated rs sched in
  (status resp = HTTP_BAD_REQUEST -> outcome = Raised_vapor InvalidIDError) /\
  (status resp <> HTTP_BAD_REQUEST -> status resp = HTTP_UNAUTHORIZED ->
   outcome = Raised_vapor UnauthorizedError) /\
  (status resp <> HTTP_BAD_REQUEST -> status resp <> HTTP_UNAUTHORIZED ->
   (json_loads (data resp) = None -> outcome = Raised_other JSONDecodeError) /\
   (forall payload,
      json_loads (data resp) = Some payload ->
      outcome = Batch (_parse_steam_user_games (as_user_data payload) cache
                         on_games_loaded on_game_updated sched))).
Proof.
  intros Hid Hrest outcome. subst outcome.
  unfold get_steam_user_data, owned_games.
  rewrite replay_bind, Hid, Hrest. simpl. split_and!.
  - intros Hbad. by rewrite Hbad, Z.eqb_refl.
  - intros Hbad Hunauthorized.
    destruct (Z.eqb_spec (status resp) HTTP_BAD_REQUEST) as [|_]; [done|].
    by rewrite Hunauthorized, Z.eqb_refl.
  - intros Hbad Hunauthorized.
    destruct (Z.eqb_spec (status resp) HTTP_BAD_REQUEST) as [|_]; [done|].
    destruct (Z.eqb_spec (status resp) HTTP_UNAUTHORIZED) as [|_]; [done|].
    unfold loads. split.
    + by intros ->.
    + by intros payload ->.
Qed.

(** ** No batch hangs *)

Lemma settle_parked i c p h tr : parked (settle i c p h tr).1.1.1.
Proof. revert p h tr. induction c; intros p h tr; simpl; auto. Qed.

Lemma advance_parked i c p h s :
  Forall (fun t => parked (code t)) (tasks s) ->
  Forall (fun t => parked (code t)) (tasks (advance i c p h s)).
Proof.
  intros Hs. rewrite advance_tasks. apply Forall_insert; [done|].
  apply settle_parked.
Qed.

Lemma step_parked on_game_updated s c :
  Forall (fun t => parked (code t)) (tasks s) ->
  Forall (fun t => parked (code t)) (tasks (step on_game_updated s c)).
Proof.
  intros Hs. unfold step.
  destruct c as [i|i r|].
  - destruct (tasks s !! i) as [[k h]|]; [|done].
    destruct k; try done. destruct (permits s); [done|]. by apply advance_parked.
  - destruct (tasks s !! i) as [[k h]|]; [|done].
    destruct k; try done. by apply advance_parked.
  - destruct (aborted s); [done|]. unfold next_completed. destruct (completed s) as [|[g|e] rest]; [done| |done].
    by destruct (notify _ _ _).
Qed.

Lemma exec_parked on_game_updated sched s :
  Forall (fun t => parked (code t)) (tasks s) ->
  Forall (fun t => parked (code t)) (tasks (exec on_game_updated sched s)).
Proof.
  unfold exec. revert s. induction sched as [|c sched IH]; intros s Hs; simpl; [done|].
  by apply IH, step_parked.
Qed.

(** A task that holds a permit, or finds one free, can be answered until
    it returns. *)
Lemma finish_task on_game_updated (c : coro Game) :
  forall i p h s t,
    tasks s !! i = Some t -> aborted s = None ->
    gated h c -> no_raise c -> (1 <= p + h)%nat ->
    exists sched g,
      let s' := exec on_game_updated sched (advance i c p h s) in
      tasks s' = <[i := {| code := Ret g; held := 0 |}]> (tasks s) /\
      aborted s' = None.
Proof.
  induction c as [a|e|url k IH|k IH|k IH|u k IH]; intros i p h s t Hi Hab Hg Hn Hp.
  - inv Hg. by exists [], a.
  - inv Hn.
  - inv Hg. inv Hn.
    set (s1 := advance i (Await_get url k) p 1 s).
    set (r0 := Err (ClientError EmptyString) : result Response).
    assert (tasks s1 !! i = Some {| code := Await_get url k; held := 1 |}) as Hi1.
    { unfold s1, advance; simpl. apply list_lookup_insert_eq. by eapply lookup_lt_Some. }
    destruct (IH r0 i p 1%nat s1 _ Hi1 Hab (H1 r0) (H0 r0) Hp) as (sched & g & Htasks & Hab').
    exists (Resume i r0 :: sched), g. cbv zeta in *.
    replace (exec on_game_updated (Resume i r0 :: sched) s1)
      with (exec on_game_updated sched (advance i (k r0) p 1 s1)).
    + split; [|done]. rewrite Htasks. unfold s1, advance; simpl.
      apply list_insert_insert_eq.
    + unfold exec at 2. simpl. unfold step at 2.
      replace (aborted s1) with (@None exn) by done. by rewrite Hi1.
  - inv Hg. inv Hn. destruct p as [|p]; [lia|].
    set (s1 := advance i (Acquire k) (S p) 0 s).
    assert (tasks s1 !! i = Some {| code := Acquire k; held := 0 |}) as Hi1.
    { unfold s1, advance; simpl. apply list_lookup_insert_eq. by eapply lookup_lt_Some. }
    destruct (IH i p 1%nat s1 _ Hi1 Hab H1 H0 ltac:(lia)) as (sched & g & Htasks & Hab').
    exists (Start i :: sched), g. cbv zeta in *.
    replace (exec on_game_updated (Start i :: sched) s1)
      with (exec on_game_updated sched (advance i k p 1 s1)).
    + split; [|done]. rewrite Htasks. unfold s1, advance; simpl.
      apply list_insert_insert_eq.
    + unfold exec at 2. simpl. unfold step at 2.
      replace (aborted s1) with (@None exn) by done. by rewrite Hi1.
  - inv Hg. inv Hn.
    change (advance i (Release k) p 1 s) with (advance i k (S p) 0 s).
    apply (IH i (S p) 0%nat s t); [done..|lia].
  - inv Hg. inv Hn.
    set (s1 := {| permits := permits s; tasks := tasks s; completed := completed s;
                  consumed := consumed s; ratings_map := ratings_map s;
                  trace := trace s ++ [Cache_updated u]; aborted := aborted s |}).
    change (advance i (Update_cache u k) p h s) with (advance i k p h s1).
    apply (IH i p h s1 t); done.
Qed.

Lemma held_somewhere (l : list task) :
  (0 < sum_list_with held l)%nat -> exists j t, l !! j = Some t /\ (0 < held t)%nat.
Proof.
  induction l as [|x l IH]; simpl; [lia|]. intros Hsum.
  destruct (decide (0 < held x)%nat) as [Hx|Hx].
  - by exists 0%nat, x.
  - destruct IH as (j & t & Hj & Ht); [lia|]. by exists (S j), t.
Qed.

(** While a task has not returned, one of them can be run to its end:
    either a permit is free, or a task that holds one is waiting for an
    answer. *)
Lemma drain on_game_updated n :
  forall s,
    wf s -> Forall (fun t => parked (code t)) (tasks s) -> aborted s = None ->
    (length (omap returned (tasks s)) + n = length (tasks s))%nat ->
    exists sched,
      let s' := exec on_game_updated sched s in
      aborted s' = None /\ length (omap returned (tasks s')) = length (tasks s').
Proof.
  induction n as [|n IH]; intros s Hwf Hparked Hab Hcount.
  - exists []. simpl. split; [done|lia].
  - assert (exists j t, tasks s !! j = Some t /\ returned t = None /\
                        (1 <= permits s + held t)%nat) as (j & t & Hj & Ht & Hp).
    { destruct (permits s) as [|p] eqn:Hpermits.
      - destruct Hwf as (Hsum & Hgated & _).
        destruct (held_somewhere (tasks s)) as (j & t & Hj & Ht).
        { rewrite Hpermits in Hsum. unfold MAX_CONCURRENT_REQUESTS in Hsum. lia. }
        exists j, t. split_and!; [done| |lia].
        pose proof (Forall_lookup_1 _ _ _ _ Hgated Hj) as Hg. simpl in Hg.
        unfold returned. destruct (code t); try done. inv Hg. lia.
      - destruct (decide (Forall (fun t => is_Some (returned t)) (tasks s)))
          as [Hall|Hsome].
        + exfalso.
          assert (length (omap returned (tasks s)) = length (tasks s)); [|lia].
          clear -Hall. induction (tasks s) as [|x l IHl]; [done|].
          inv Hall. destruct H1 as [g Hg].
          change (omap returned (x :: l))
            with (match returned x with Some y => y :: omap returned l
                                   | None => omap returned l end).
          rewrite Hg. simpl. f_equal. by apply IHl.
        + apply not_Forall_Exists in Hsome; [|apply _].
          apply Exists_exists in Hsome as (t & Hin & Ht).
          apply list_elem_of_lookup in Hin as [j Hj].
          exists j, t. split_and!; [done| |lia].
          destruct (returned t) as [g|] eqn:Hreturned; [|done].
          destruct Ht. by eexists. }
    pose proof Hwf as (Hsum & Hgated & Hsafe & _).
    pose proof (Forall_lookup_1 _ _ _ _ Hgated Hj) as Hg.
    pose proof (Forall_lookup_1 _ _ _ _ Hsafe Hj) as Hn.
    pose proof (Forall_lookup_1 _ _ _ _ Hparked Hj) as Hpk.
    destruct t as [c h]. simpl in Hg, Hn, Hpk, Hp. unfold returned in Ht. simpl in Ht.
    assert (exists choice sched g,
               let s1 := exec on_game_updated (choice :: sched) s in
               tasks s1 = <[j := {| code := Ret g; held := 0 |}]> (tasks s) /\
               aborted s1 = None) as (choice & sched & g & Htasks & Hab1).
    { destruct c as [a|e|url k|k|k|u k]; try done.
      - inv Hn.
      - inv Hg. inv Hn.
        set (r0 := Err (ClientError EmptyString) : result Response).
        destruct (finish_task on_game_updated (k r0) j (permits s) 1%nat s _ Hj Hab
                    (H1 r0) (H0 r0) ltac:(lia)) as (sched & g & Hdone).
        exists (Resume j r0), sched, g. cbv zeta in *.
        replace (exec on_game_updated (Resume j r0 :: sched) s)
          with (exec on_game_updated sched (advance j (k r0) (permits s) 1 s)); [done|].
        unfold exec at 2. simpl. unfold step at 2. by rewrite Hj.
      - inv Hg. inv Hn. destruct (permits s) as [|p] eqn:Hpermits; [lia|].
        destruct (finish_task on_game_updated k j p 1%nat s _ Hj Hab H1 H0 ltac:(lia))
          as (sched & g & Hdone).
        exists (Start j), sched, g. cbv zeta in *.
        replace (exec on_game_updated (Start j :: sched) s)
          with (exec on_game_updated sched (advance j k p 1 s)); [done|].
        unfold exec at 2. simpl. unfold step at 2. by rewrite Hj, Hpermits. }
    cbv zeta in *.
    set (s1 := exec on_game_updated (choice :: sched) s) in *.
    destruct (IH s1) as (sched' & Hab' & Hall).
    + by apply exec_wf.
    + by apply exec_parked.
    + done.
    + rewrite Htasks, length_insert.
      pose proof (omap_insert_unreturned returned (tasks s) j
                    {| code := c; held := h |} {| code := Ret g; held := 0 |} Hj Ht)
        as Hperm.
      apply Permutation_length in Hperm. rewrite Hperm. simpl. lia.
    + exists ((choice :: sched) ++ sched'). by rewrite exec_app.
Qed.

(** The results that wait in the queue can be taken out one by one. *)
Lemma consume on_game_updated n :
  forall s,
    aborted s = None -> length (completed s) = n ->
    Forall (fun r => exists g, r = Ok g) (completed s) ->
    (consumed s + n = length (tasks s))%nat ->
    let s' := exec on_game_updated (replicate n Next) s in
    is_Some (aborted s') \/ (aborted s' = None /\ consumed s' = length (tasks s')).
Proof.
  induction n as [|n IH]; intros s Hab Hlen Hqueue Hcount; simpl.
  - right. split; [done|lia].
  - destruct (completed s) as [|r rest] eqn:Hc; [done|].
    inv Hqueue. destruct H1 as [g ->].
    change (exec on_game_updated (Next :: replicate n Next) s)
      with (exec on_game_updated (replicate n Next) (step on_game_updated s Next)).
    remember (step on_game_updated s Next) as s1 eqn:Hs1.
    unfold step in Hs1. rewrite Hab in Hs1.
    unfold next_completed in Hs1. rewrite Hc in Hs1.
    destruct (notify on_game_updated On_game_updated g) as [evs [[]|e]]; subst s1.
    + apply IH; simpl; try done; [by injection Hlen|lia].
    + left. exists e. by apply exec_stopped.
Qed.

(** X19: the batch never hangs.  However far a schedule has brought it,
    whatever was started, answered and consumed, the schedule can be
    continued, by answers to the requests that are out, so that the batch
    returns or raises: a task that waits for the semaphore is never left
    without a task that will give a permit back, and every result that is
    produced reaches the loop. *)
Theorem batch_never_hangs data cache on_games_loaded on_game_updated sched :
  exists more,
    result_of (_parse_steam_user_games data cache on_games_loaded on_game_updated
                 (sched ++ more))
    <> Running.
Proof.
  unfold _parse_steam_user_games.
  destruct (response_games data) as [games|]; [|by exists []].
  pose proof (notify_loaded_quiet on_games_loaded (initial_game_ratings games))
    as (_ & _ & Hquiet).
  destruct (notify _ _ _) as [tr [[]|e]]; [|by exists []].
  simpl in Hquiet.
  set (s := exec on_game_updated sched (launch games cache tr)).
  assert (wf s) as Hwf by apply exec_wf, launch_wf.
  assert (Forall (fun t => parked (code t)) (tasks s)) as Hparked.
  { apply exec_parked. unfold launch; simpl. apply Forall_fmap, Forall_true.
    by intros game. }
  destruct (exec_accounted on_game_updated sched (launch games cache tr) [])
    as (cs & Hbooks); [apply launch_wf|by apply launch_accounted|].
  fold s in Hbooks.
  assert (forall more result events',
             (let s' := exec on_game_updated (sched ++ more) (launch games cache tr) in
              match aborted s' with
              | Some e => {| result_of := Raised (leaving e); events := trace s' |}
              | None =>
                  if (consumed s' <? length (tasks s'))%nat
                  then {| result_of := Running; events := trace s' |}
                  else finalize cache (initial_game_ratings games) (ratings_map s')
                         (trace s')
              end) = {| result_of := result; events := events' |} ->
             is_Some (aborted (exec on_game_updated more s)) \/
             (aborted (exec on_game_updated more s) = None /\
              consumed (exec on_game_updated more s)
              = length (tasks (exec on_game_updated more s))) ->
             result <> Running) as Hend.
  { intros more result events'. cbv zeta. rewrite exec_app. fold s.
    intros Hrun [[e He]|[Hab Hcons]].
    - rewrite He in Hrun. by injection Hrun as <- _.
    - rewrite Hab, Hcons, Nat.ltb_irrefl in Hrun. unfold finalize in Hrun.
      destruct (game_ratings_copy _ _); [|by injection Hrun as <- _].
      destruct (user_average_text _); by injection Hrun as <- _. }
  destruct (aborted s) as [e|] eqn:Hab.
  { exists []. rewrite app_nil_r. fold s. by rewrite Hab. }
  destruct (drain on_game_updated (length (tasks s) - length (omap returned (tasks s))) s)
    as (sched1 & Hab1 & Hall); [done..| |].
  { pose proof (length_omap returned (tasks s)). lia. }
  cbv zeta in *. set (s1 := exec on_game_updated sched1 s) in *.
  assert (wf s1) as Hwf1 by by apply exec_wf.
  destruct (exec_accounted on_game_updated sched1 s cs Hwf Hbooks)
    as (cs1 & _ & _ & Hperm & Hlen). fold s1 in Hperm, Hlen.
  pose proof Hwf1 as (_ & _ & _ & Hqueue).
  assert (length (omap queued (completed s1)) = length (completed s1)) as Hall_ok.
  { clear -Hqueue. induction Hqueue as [|r l [g ->] _ IHl]; [done|].
    simpl. by f_equal. }
  pose proof (consume on_game_updated (length (completed s1)) s1 Hab1 eq_refl Hqueue)
    as Hdone.
  exists (sched1 ++ replicate (length (completed s1)) Next).
  destruct (let s' := exec on_game_updated
                        (sched ++ sched1 ++ replicate (length (completed s1)) Next)
                        (launch games cache tr) in
            match aborted s' with
            | Some e => {| result_of := Raised (leaving e); events := trace s' |}
            | None =>
                if (consumed s' <? length (tasks s'))%nat
                then {| result_of := Running; events := trace s' |}
                else finalize cache (initial_game_ratings games) (ratings_map s')
                       (trace s')
            end) as [result events'] eqn:Hrun.
  simpl. eapply Hend; [exact Hrun|].
  rewrite exec_app. fold s1. apply Hdone.
  apply Permutation_length in Hperm. rewrite length_app in Hperm. lia.
Qed.

(** ** The requests of a task *)


















(** ** A callback that raises *)

Lemma snoc_split {A : Type} (l : list A) y pre x post :
  l ++ [y] = pre ++ x :: post ->
  (post = [] /\ x = y /\ pre = l) \/ (exists m, post = m ++ [y] /\ l = pre ++ x :: m).
Proof.
  destruct post as [|z post _] using rev_ind.
  - intros Heq. left. apply app_inj_tail in Heq as [-> ->]. done.
  - intros Heq. right. exists post.
    change (pre ++ x :: post ++ [z]) with (pre ++ (x :: post) ++ [z]) in Heq.
    rewrite app_assoc in Heq. apply app_inj_tail in Heq as [-> ->]. done.
Qed.

Lemma requests_split l1 l2 pre (x : event) post :
  l1 ++ l2 = pre ++ x :: post ->
  Forall (fun ev => is_request ev = true) l2 -> is_request x = false ->
  exists m, l1 = pre ++ x :: m /\ post = m ++ l2.
Proof.
  revert post. induction l2 as [|y l2 IH] using rev_ind; intros post Heq Hl2 Hx.
  - exists post. rewrite !app_nil_r in *. done.
  - apply Forall_app in Hl2 as [Hl2 Hy]. rewrite Forall_singleton in Hy.
    rewrite app_assoc in Heq. apply snoc_split in Heq as [(_ & -> & _)|(m & -> & Heq)].
    + congruence.
    + destruct (IH m Heq Hl2 Hx) as (m' & -> & ->). exists m'. by rewrite app_assoc.
Qed.

(** A task that does not write to the cache adds requests to the trace,
    and nothing else. *)
Lemma settle_requests i c p h tr :
  update_free c ->
  exists ext,
    (settle i c p h tr).2 = tr ++ ext /\ Forall (fun ev => is_request ev = true) ext.
Proof.
  intros Hc. revert p h tr. induction Hc; intros p h tr; simpl;
    try (exists []; by rewrite app_nil_r); auto.
  exists [Request i url]. by repeat constructor.
Qed.

(** Every game given to the callback [f] was taken without an exception,
    but for the one call that raised and stopped the batch; after that
    call the trace holds requests only. *)
Lemma step_heard (f : Game -> result unit) s c :
  wf s ->
  (forall i t, tasks s !! i = Some t -> update_free (code t)) ->
  (forall pre g post,
     trace s = pre ++ On_game_updated g :: post ->
     f g = Ok () \/
     exists e, f g = Err e /\ aborted s = Some e /\
               Forall (fun ev => is_request ev = true) post) ->
  forall pre g post,
    trace (step (Some f) s c) = pre ++ On_game_updated g :: post ->
    f g = Ok () \/
    exists e, f g = Err e /\ aborted (step (Some f) s c) = Some e /\
              Forall (fun ev => is_request ev = true) post.
Proof.
  intros Hwf Hfree Hs.
  assert (forall j k p h pre g post,
            update_free k ->
            trace (advance j k p h s) = pre ++ On_game_updated g :: post ->
            f g = Ok () \/
            exists e, f g = Err e /\ aborted (advance j k p h s) = Some e /\
                      Forall (fun ev => is_request ev = true) post) as Hadvance.
  { intros j k p h pre g post Hk. rewrite advance_trace.
    destruct (settle_requests j k p h (trace s) Hk) as (ext & Hext & Hreq).
    rewrite Hext. intros Htr.
    destruct (requests_split _ _ _ _ _ Htr Hreq eq_refl) as (m & Hm & ->).
    destruct (Hs pre g m Hm) as [Hok|(e & He & Hab & Hpost)]; [by left|].
    right. exists e. split_and!; [done| |by apply Forall_app].
    unfold advance. by destruct (settle _ _ _ _ _) as [[[c' p'] h'] tr']. }
  intros pre g post. unfold step.
  destruct c as [j|j r|].
  - destruct (tasks s !! j) as [[k h]|] eqn:Hj; [|apply Hs].
    destruct k; try apply Hs. destruct (permits s); [apply Hs|].
    apply Hadvance. specialize (Hfree j _ Hj). by inv Hfree.
  - destruct (tasks s !! j) as [[k h]|] eqn:Hj; [|apply Hs].
    destruct k; try apply Hs.
    apply Hadvance. specialize (Hfree j _ Hj). by inv Hfree.
  - destruct (aborted s) as [e0|] eqn:Hab.
    { intros Htr. destruct (Hs pre g post Htr) as [Hok|(e & He & Heq & Hpost)]; [by left|].
      right. exists e. by rewrite Hab. }
    unfold next_completed. destruct Hwf as (_ & _ & _ & Hqueue).
    destruct (completed s) as [|[g'|e] rest].
    + intros Htr. left.
      destruct (Hs pre g post Htr) as [Hok|(e & _ & ? & _)]; [done|congruence].
    + simpl. intros Htr.
      apply snoc_split in Htr as [(-> & [= ->] & ->)|(m & -> & Htr)].
      * destruct (f g') as [[]|e]; [by left|right; by exists e].
      * left. destruct (Hs pre g m Htr) as [Hok|(e & _ & ? & _)]; [done|congruence].
    + inv Hqueue. by destruct H1.
Qed.

Lemma exec_heard (f : Game -> result unit) sched s :
  wf s ->
  (forall i t, tasks s !! i = Some t -> update_free (code t)) ->
  (forall pre g post,
     trace s = pre ++ On_game_updated g :: post ->
     f g = Ok () \/
     exists e, f g = Err e /\ aborted s = Some e /\
               Forall (fun ev => is_request ev = true) post) ->
  forall pre g post,
    trace (exec (Some f) sched s) = pre ++ On_game_updated g :: post ->
    f g = Ok () \/
    exists e, f g = Err e /\ aborted (exec (Some f) sched s) = Some e /\
              Forall (fun ev => is_request ev = true) post.
Proof.
  unfold exec. revert s.
  induction sched as [|c sched IH]; intros s Hwf Hfree Hs; simpl; [done|].
  apply IH; [by apply step_wf| |by apply step_heard].
  apply (step_closed (fun _ => update_free)); [|done].
  intros _. apply closed_update_free.
Qed.

(** X21: an exception of a callback is not caught: the batch raises it (a
    [StopIteration] as the [RuntimeError] it becomes when it leaves the
    coroutine).  Every call of a callback before the one that raises has
    returned.  A call of [on_games_loaded] that raises is the only event
    of the run.  After a call of [on_game_updated] that raises no game is
    streamed and the cache is not written; the tasks are not cancelled,
    and the only events that can follow are their requests. *)
Theorem callback_failure_ends_batch data cache on_games_loaded f sched pre post :
  let batch_run := _parse_steam_user_games data cache on_games_loaded (Some f) sched in
  (forall g,
     events batch_run = pre ++ On_game_updated g :: post ->
     f g = Ok () \/
     exists e, f g = Err e /\ result_of batch_run = Raised (leaving e) /\
               Forall (fun ev => is_request ev = true) post) /\
  (forall l,
     events batch_run = pre ++ On_games_loaded l :: post ->
     exists loaded,
       on_games_loaded = Some loaded /\
       (loaded l = Ok () \/
        exists e, loaded l = Err e /\ post = [] /\
                  result_of batch_run = Raised (leaving e))).
Proof.
  intros batch_run. subst batch_run. unfold _parse_steam_user_games.
  destruct (response_games data) as [games|]; [|split; intros x Hx; by destruct pre].
  destruct (notify on_games_loaded On_games_loaded (initial_game_ratings games))
    as [tr r0] eqn:Hnotify.
  assert (streamed tr = []) as Hquiet.
  { pose proof (notify_loaded_quiet on_games_loaded (initial_game_ratings games))
      as (_ & _ & Hq). by rewrite Hnotify in Hq. }
  assert (forall l pre' post',
             tr = pre' ++ On_games_loaded l :: post' ->
             pre' = [] /\ post' = [] /\
             exists loaded, on_games_loaded = Some loaded /\ loaded l = r0) as Hloaded.
  { intros l pre' post' Htr. destruct on_games_loaded as [loaded|]; simpl in Hnotify.
    - injection Hnotify as <- <-.
      destruct pre' as [|x [|y pre']]; try done.
      injection Htr as -> <-. split_and!; [done..|]. by exists loaded.
    - injection Hnotify as <- <-. by destruct pre'. }
  destruct r0 as [[]|e0].
  2:{ simpl. split.
      - intros g Htr. exfalso. rewrite Htr, streamed_app in Hquiet. simpl in Hquiet.
        by apply app_eq_nil in Hquiet as [_ ?].
      - intros l Htr. destruct (Hloaded l pre post Htr) as (_ & -> & loaded & -> & Hl).
        exists loaded. split; [done|]. right. by exists e0. }
  set (s := exec (Some f) sched (launch games cache tr)).
  assert (wf s) as Hwf by apply exec_wf, launch_wf.
  assert (forall pre' g post',
             trace s = pre' ++ On_game_updated g :: post' ->
             f g = Ok () \/
             exists e, f g = Err e /\ aborted s = Some e /\
                       Forall (fun ev => is_request ev = true) post')
    as Hheard.
  { apply exec_heard; [apply launch_wf| |].
    - intros i t Ht. unfold launch in Ht; simpl in Ht.
      apply list_lookup_fmap_Some in Ht as (game & -> & _).
      apply update_free_fetch_single_game_rating.
    - intros pre' g post' Htr. exfalso. unfold launch in Htr; simpl in Htr.
      rewrite Htr, streamed_app in Hquiet. simpl in Hquiet.
      by apply app_eq_nil in Hquiet as [_ ?]. }
  destruct (exec_trace (Some f) sched (launch games cache tr)) as (ext & Hext & Hlater).
  fold s in Hext. unfold launch in Hext; simpl in Hext.
  assert (forall l pre' post',
             trace s = pre' ++ On_games_loaded l :: post' ->
             exists loaded, on_games_loaded = Some loaded /\ loaded l = Ok ()) as Hfirst.
  { intros l pre' post' Htr. rewrite Hext in Htr.
    destruct on_games_loaded as [loaded|]; simpl in Hnotify.
    - injection Hnotify as <- Hr.
      destruct pre' as [|x pre']; simpl in Htr.
      + injection Htr as <- _. by exists loaded.
      + injection Htr as _ Htr. exfalso.
        assert (On_games_loaded l ∈ ext) as Hin
          by (rewrite Htr; apply elem_of_app; right; constructor).
        rewrite Forall_forall in Hlater. by specialize (Hlater _ Hin).
    - injection Hnotify as <-. exfalso. simpl in Htr.
      assert (On_games_loaded l ∈ ext) as Hin
        by (rewrite Htr; apply elem_of_app; right; constructor).
      rewrite Forall_forall in Hlater. by specialize (Hlater _ Hin). }
  destruct (aborted s) as [e|] eqn:Hab; simpl.
  { split.
    - intros g Htr.
      destruct (Hheard pre g post Htr) as [Hok|(e' & He & [= <-] & Hpost)];
        [by left|right; by exists e].
    - intros l Htr. destruct (Hfirst l pre post Htr) as (loaded & Hl & Hok).
      exists loaded. split; [done|by left]. }
  assert (forall tl (outcome_of_run : outcome SteamUserData),
             tl = trace s \/ (exists u, tl = trace s ++ [Cache_updated u]) ->
             (forall g, tl = pre ++ On_game_updated g :: post ->
                        f g = Ok () \/
                        exists e, f g = Err e /\ outcome_of_run = Raised (leaving e) /\
                                  Forall (fun ev => is_request ev = true) post) /\
             (forall l, tl = pre ++ On_games_loaded l :: post ->
                        exists loaded,
                          on_games_loaded = Some loaded /\
                          (loaded l = Ok () \/
                           exists e, loaded l = Err e /\ post = [] /\
                                     outcome_of_run = Raised (leaving e))))
    as Hany.
  { intros tl outcome_of_run [->|[u ->]]; split.
    - intros g Htr. left.
      destruct (Hheard pre g post Htr) as [Hok|(e' & _ & ? & _)]; [done|congruence].
    - intros l Htr. destruct (Hfirst l pre post Htr) as (loaded & Hl & Hok).
      exists loaded. split; [done|by left].
    - intros g Htr. left.
      apply snoc_split in Htr as [(_ & ? & _)|(m & _ & Htr)]; [done|].
      destruct (Hheard pre g m Htr) as [Hok|(e' & _ & ? & _)]; [done|congruence].
    - intros l Htr.
      apply snoc_split in Htr as [(_ & ? & _)|(m & _ & Htr)]; [done|].
      destruct (Hfirst l pre m Htr) as (loaded & Hl & Hok).
      exists loaded. split; [done|by left]. }
  destruct (consumed s <? length (tasks s))%nat; simpl; [apply Hany; by left|].
  unfold finalize.
  destruct (game_ratings_copy _ _); simpl; [|apply Hany; by left].
  destruct (user_average_text _); simpl; apply Hany; right; by eexists.
Qed.

End Vapor.

(** * The properties at work *)

Lemma batch_keeps_games_witness :
  result_of (_parse_steam_user_games sample_loads 200 glossary_RATING_DICT
               (owned [game_B; game_A]) empty_cache quiet_list quiet scenario)
  = Returned scenario_result /\
  exists games,
    response_games (owned [game_B; game_A]) = Some games /\
    length (game_ratings scenario_result) = length games /\
    app_id <$> game_ratings scenario_result ≡ₚ (fun g => str (raw.appid g)) <$> games /\
    (NoDup (app_id <$> game_ratings scenario_result) <-> NoDup (raw.appid <$> games)).
Proof.
  assert (result_of (_parse_steam_user_games sample_loads 200 glossary_RATING_DICT
                       (owned [game_B; game_A]) empty_cache quiet_list quiet scenario)
          = Returned scenario_result) as Hrun by (vm_compute; reflexivity).
  split; [exact Hrun|].
  exact (batch_keeps_games sample_loads 200 glossary_RATING_DICT _ _ _ _ _ _ Hrun).
Defined.

(** C1, as stated, fails: a games list that names game 10 twice is
    answered by a list that names it twice. *)
Lemma duplicate_identifiers_survive :
  result_of (_parse_steam_user_games sample_loads 200 glossary_RATING_DICT
               (owned [game_A; game_A]) empty_cache None None both_gold)
  = Returned twice_A /\
  ~ NoDup (app_id <$> game_ratings twice_A).
Proof.
  split; [vm_compute; reflexivity|].
  cbn. intros [Hin _]%NoDup_cons. apply Hin. left.
Qed.



Lemma ties_reversed_witness :
  let batch_run :=
    _parse_steam_user_games sample_loads 200 glossary_RATING_DICT
      (owned [game_A; game_C]) empty_cache None None both_gold in
  result_of batch_run = Returned tie_result /\
  app_id <$> tied 5 (initial_game_ratings [game_A; game_C]) = ["10"; "30"] /\
  app_id <$> tied 5 (game_ratings tie_result) = ["30"; "10"] /\
  exists games m,
    response_games (owned [game_A; game_C]) = Some games /\
    forall p,
      let same := filter (fun g => raw.playtime_forever g = p) games in
      tied p (initial_game_ratings games) = loading <$> same /\
      tied p (game_ratings tie_result) = reverse (rated m <$> (loading <$> same)) /\
      app_id <$> tied p (game_ratings tie_result)
        = reverse (app_id <$> tied p (initial_game_ratings games)) /\
      (app_id <$> tied p (game_ratings tie_result)
         <> app_id <$> tied p (initial_game_ratings games)
       <-> reverse (raw.appid <$> same) <> raw.appid <$> same) /\
      (NoDup (raw.appid <$> same) -> (2 <= length same)%nat ->
       app_id <$> tied p (game_ratings tie_result)
         <> app_id <$> tied p (initial_game_ratings games)).
Proof.
  intros batch_run.
  assert (result_of batch_run = Returned tie_result) as Hrun by (vm_compute; reflexivity).
  split_and!; [exact Hrun|vm_compute; reflexivity|vm_compute; reflexivity|].
  apply (ties_reversed sample_loads 200 glossary_RATING_DICT
           (owned [game_A; game_C]) empty_cache None None both_gold
           (game_ratings tie_result)).
  right. exists tie_result. split; [exact Hrun|reflexivity].
Defined.

(** C10, as stated, fails: a games list that names game 10 twice, and one
    that has game 30 between the two, have two or more games of playtime
    5, and the snapshot and the returned list have them in the same
    order. *)
Lemma repeated_game_ties_agree :
  let order (l : list Game) := (fun g => (name g, app_id g)) <$> tied 5 l in
  result_of (_parse_steam_user_games sample_loads 200 glossary_RATING_DICT
               (owned [game_A; game_A]) empty_cache None None both_gold)
  = Returned twice_A /\
  order (initial_game_ratings [game_A; game_A]) = order (game_ratings twice_A) /\
  (exists r,
     result_of (_parse_steam_user_games sample_loads 200 glossary_RATING_DICT
                  (owned [game_A; game_C; game_A]) empty_cache None None three_gold)
     = Returned r /\
     order (initial_game_ratings [game_A; game_C; game_A]) = order (game_ratings r) /\
     length (order (game_ratings r)) = 3%nat).
Proof.
  intros order. split_and!; [vm_compute; reflexivity|vm_compute; reflexivity|].
  eexists. split_and!; vm_compute; reflexivity.
Qed.

Lemma snapshot_first_witness :
  response_games (owned [game_A; game_B]) = Some [game_A; game_B] /\
  initial_game_ratings [game_A; game_B]
  = [{| name := "B"; rating := JStr "loading"; playtime := 50; app_id := "20" |};
     {| name := "A"; rating := JStr "loading"; playtime := 5; app_id := "10" |}] /\
  Forall (fun g => rating g = JStr "loading") (initial_game_ratings [game_A; game_B]) /\
  exists rest,
    events (_parse_steam_user_games sample_loads 200 glossary_RATING_DICT
              (owned [game_A; game_B]) empty_cache (Some (fun _ => Ok ())) quiet
              both_gold)
    = On_games_loaded (initial_game_ratings [game_A; game_B]) :: rest /\
    Forall (fun e => is_snapshot e = false) rest.
Proof.
  destruct (snapshot_first sample_loads 200 glossary_RATING_DICT
              (owned [game_A; game_B]) empty_cache (fun _ => Ok ()) quiet both_gold
              [game_A; game_B] eq_refl) as (Hfirst & _ & Hloading & _).
  split_and!; [reflexivity|vm_compute; reflexivity|exact Hloading|exact Hfirst].
Defined.

Lemma resolver_never_raises_witness :
  replay (get_game_average_rating sample_loads 200 (str (raw.appid game_A)) empty_cache)
         [Err (ClientError "timeout"); answer 200 "tier gold"]
  = Some (Err (ClientError "timeout")) /\
  replay (_fetch_single_game_rating sample_loads 200 game_A empty_cache)
         [Err (ClientError "timeout"); answer 200 "tier gold"]
  = Some (Ok {| name := "A"; rating := JStr "pending"; playtime := 5; app_id := "10" |}).
Proof.
  assert (replay (get_game_average_rating sample_loads 200 (str (raw.appid game_A))
                    empty_cache)
                 [Err (ClientError "timeout"); answer 200 "tier gold"]
          = Some (Err (ClientError "timeout"))) as Hraised by (vm_compute; reflexivity).
  split; [exact Hraised|].
  destruct (resolver_never_raises sample_loads 200 game_A empty_cache
              [Err (ClientError "timeout"); answer 200 "tier gold"])
    as (_ & _ & _ & Hpending & _).
  exact (Hpending _ Hraised).
Defined.

Lemma cache_short_circuit_witness :
  has_game_cache cache_with_A = true /\
  get_game_data cache_with_A "10" = Ok (Some game_A_gold) /\
  get_game_average_rating sample_loads 200 "10" cache_with_A = Ret (JStr "gold") /\
  replay (get_game_average_rating sample_loads 200 "10" cache_with_A) [] = Some (Ok (JStr "gold")) /\
  calls (get_game_average_rating sample_loads 200 "10" cache_with_A) [] = [].
Proof.
  split_and!; [reflexivity|reflexivity|..];
    apply (cache_short_circuit sample_loads 200 "10" cache_with_A game_A_gold []);
    reflexivity.
Defined.

Lemma concurrency_bound_witness :
  let s := exec None rush (launch sample_loads 200 crowd empty_cache []) in
  permits s = 0%nat /\
  length (filter (fun t => in_flight t) (tasks s)) = 20%nat /\
  length (filter (fun t => awaiting t) (tasks s)) = 20%nat /\
  length (tasks s) = 25%nat /\
  calls (_fetch_single_game_rating sample_loads 200 game_A cache_with_A) [] = [] /\
  gate_ops (_fetch_single_game_rating sample_loads 200 game_A cache_with_A) []
  = [Acquired; Released] /\
  gate_ops (_fetch_single_game_rating sample_loads 200 game_A empty_cache)
           [answer 200 "no platforms"]
  = [Acquired].
Proof.
  intros s.
  destruct (concurrency_bound sample_loads 200 crowd empty_cache None rush [])
    as (Hsum & _ & Hout & _).
  fold s in Hsum, Hout.
  destruct (concurrency_bound sample_loads 200 [game_A] cache_with_A None [] [])
    as (_ & _ & _ & _ & _ & _ & Hhit).
  destruct (concurrency_bound sample_loads 200 [game_A] empty_cache None [] [])
    as (_ & _ & _ & _ & _ & _ & Hmiss).
  assert (permits s = 0%nat) as Hpermits by (vm_compute; reflexivity).
  assert (20 <= length (filter (fun t => awaiting t) (tasks s)))%nat as Hlow
    by (vm_compute; lia).
  unfold MAX_CONCURRENT_REQUESTS in Hsum.
  split_and!; [exact Hpermits|lia|lia|vm_compute; reflexivity|reflexivity| |].
  - exact (Hhit game_A []).
  - exact (Hmiss game_A [answer 200 "no platforms"]).
Defined.


(** C8: the code commits the games it has just sorted out for removal.
    A is in the cache before the batch; the copy of the list without the
    cached games is [B], the list given to [update_cache] is [B; A]. *)
Example cached_game_is_committed :
  get_game_data cache_with_A "10" = Ok (Some game_A_gold) /\
  game_ratings_copy cache_with_A [game_B_gold; game_A_gold] = Ok [game_B_gold] /\
  last (events (_parse_steam_user_games sample_loads 200 glossary_RATING_DICT
                  (owned [game_B; game_A]) cache_with_A None None mixed))
  = Some (Cache_updated (Game_list [game_B_gold; game_A_gold])).
Proof. split_and!; vm_compute; reflexivity. Qed.

(** C9, as stated, fails: after a refused fetch the function returns
    [None], not the cache. *)
Lemma refused_fetch_returns_no_cache :
  has_anticheat_cache empty_cache = false /\
  replay (get_anti_cheat_data sample_loads 200 sample_statuses empty_cache)
         [answer 404 "refused"]
  = Some (Ok None) /\
  replay (get_anti_cheat_data sample_loads 200 sample_statuses empty_cache)
         [answer 404 "refused"]
  <> Some (Ok (Some empty_cache)).
Proof.
  split_and!; [reflexivity|vm_compute; reflexivity|].
  vm_compute. discriminate.
Qed.

Lemma anti_cheat_refresh_witness :
  has_anticheat_cache empty_cache = false /\
  updates (get_anti_cheat_data sample_loads 200 sample_statuses empty_cache)
          [answer 200 "anti-cheat list"]
  = [Anti_cheat_list [{| anticheat.app_id := JStr "10"; anticheat.status := "Supported" |}]] /\
  replay (get_anti_cheat_data sample_loads 200 sample_statuses empty_cache)
         [answer 200 "anti-cheat list"]
  = Some (Ok (Some empty_cache)) /\
  replay (get_anti_cheat_data sample_loads 200 sample_statuses empty_cache)
         [answer 200 "not json"]
  = Some (Ok None) /\
  get_anti_cheat_data sample_loads 200 sample_statuses cache_with_A = Ret (Some cache_with_A).
Proof.
  assert (updates (get_anti_cheat_data sample_loads 200 sample_statuses empty_cache)
                  [answer 200 "anti-cheat list"]
          = [Anti_cheat_list [{| anticheat.app_id := JStr "10";
                                 anticheat.status := "Supported" |}]]) as Hupd
    by (vm_compute; reflexivity).
  destruct (anti_cheat_refresh sample_loads 200 sample_statuses empty_cache
              [answer 200 "anti-cheat list"]) as (_ & _ & Honly).
  destruct (anti_cheat_refresh sample_loads 200 sample_statuses empty_cache
              [answer 200 "not json"]) as (_ & Hsoft & _).
  destruct (anti_cheat_refresh sample_loads 200 sample_statuses cache_with_A [])
    as (Hfresh & _ & _).
  split_and!.
  - reflexivity.
  - exact Hupd.
  - destruct Honly as (_ & resp & rest & payload & l & _ & _ & _ & _ & Hret).
    + rewrite Hupd. discriminate.
    + exact Hret.
  - apply (Hsoft eq_refl _ _ eq_refl). right. reflexivity.
  - apply Hfresh. reflexivity.
Defined.

Lemma native_check_soft_failure_witness :
  replay (check_game_is_native sample_loads 200 "10")
         [answer 500 "linux build"; answer 200 "tier gold"]
  = Some (Ok (JBool false)).
Proof.
  apply (native_check_soft_failure sample_loads 200 "10"
           {| data := "linux build"; status := 500 |}).
  simpl. lia.
Defined.

Lemma native_check_decision_witness :
  replay (check_game_is_native steam_loads 200 "10") [answer 200 "linux build"]
  = Some (Ok (JBool true)) /\
  replay (check_game_is_native steam_loads 200 "10") [answer 200 "no such app"]
  = Some (Ok (JBool false)) /\
  replay (check_game_is_native steam_loads 200 "20") [answer 200 "no such app"]
  = Some (Ok (JBool false)).
Proof.
  split_and!.
  - destruct (native_check_decision steam_loads 200 "10"
                {| data := "linux build"; status := 200 |} [] _ eq_refl eq_refl)
      as [_ Hentry].
    destruct (Hentry _ eq_refl) as [_ Hnative].
    exact (Hnative eq_refl _ _ eq_refl eq_refl).
  - destruct (native_check_decision steam_loads 200 "10"
                {| data := "no such app"; status := 200 |} [] _ eq_refl eq_refl)
      as [_ Hentry].
    destruct (Hentry _ eq_refl) as [Hfalsy _].
    exact (Hfalsy eq_refl).
  - destruct (native_check_decision steam_loads 200 "20"
                {| data := "no such app"; status := 200 |} [] _ eq_refl eq_refl)
      as [Habsent _].
    exact (Habsent eq_refl).
Defined.

Lemma silent_cache_is_ignored_witness :
  has_game_cache empty_cache = false /\
  get_game_data cache_with_A "20" = Ok None /\
  get_game_average_rating sample_loads 200 "20" empty_cache
  = get_game_average_rating sample_loads 200 "20" cache_with_A.
Proof.
  split_and!; [reflexivity|reflexivity|].
  apply (silent_cache_is_ignored sample_loads 200 "20" empty_cache cache_with_A).
  - left. reflexivity.
  - right. reflexivity.
Defined.

Lemma rating_lookup_outcome_witness :
  replay (get_game_average_rating steam_loads 200 "10" empty_cache)
         [answer 200 "linux build"]
  = Some (Ok (JStr "native")) /\
  calls (get_game_average_rating steam_loads 200 "10" empty_cache)
        [answer 200 "linux build"]
  = [appdetails_url "10"] /\
  replay (get_game_average_rating steam_loads 200 "10" empty_cache)
         [answer 200 "no such app"; answer 200 "tier diamond"]
  = Some (Ok (JStr "diamond")) /\
  replay (get_game_average_rating steam_loads 200 "10" empty_cache)
         [answer 200 "no such app"; answer 429 "tier gold"]
  = Some (Ok (JStr "pending")).
Proof.
  destruct (rating_lookup_outcome steam_loads 200 "10" empty_cache
              (answer 200 "linux build") [] (JBool true))
    as [Hnative _]; [left; reflexivity|vm_compute; reflexivity|].
  destruct (rating_lookup_outcome steam_loads 200 "10" empty_cache
              (answer 200 "no such app") [answer 200 "tier diamond"] (JBool false))
    as [_ Htier]; [left; reflexivity|vm_compute; reflexivity|].
  destruct (rating_lookup_outcome steam_loads 200 "10" empty_cache
              (answer 200 "no such app") [answer 429 "tier gold"] (JBool false))
    as [_ Hrefused]; [left; reflexivity|vm_compute; reflexivity|].
  split_and!.
  - exact (proj1 (Hnative eq_refl)).
  - exact (proj2 (Hnative eq_refl)).
  - destruct (Htier eq_refl _ _ eq_refl) as [_ Hsuccess].
    exact (Hsuccess _ eq_refl eq_refl).
  - destruct (Hrefused eq_refl _ _ eq_refl) as [Hsoft _].
    apply Hsoft. simpl. lia.
Defined.

Lemma streamed_once_per_game_witness :
  streamed (events (_parse_steam_user_games sample_loads 200 glossary_RATING_DICT
                      (owned [game_B; game_A]) empty_cache quiet_list quiet scenario))
  = [game_A_gold; game_B_pending] /\
  exists results,
    Forall2 resolves [game_B; game_A] results /\
    streamed (events (_parse_steam_user_games sample_loads 200 glossary_RATING_DICT
                        (owned [game_B; game_A]) empty_cache quiet_list quiet scenario))
    ≡ₚ results.
Proof.
  split; [vm_compute; reflexivity|].
  apply (streamed_once_per_game sample_loads 200 glossary_RATING_DICT
           (owned [game_B; game_A]) empty_cache quiet_list (fun _ => Ok ()) scenario
           [game_B; game_A] scenario_result).
  - reflexivity.
  - vm_compute. reflexivity.
Defined.

Lemma returned_list_is_streamed_witness :
  NoDup (raw.appid <$> [game_B; game_A]) /\
  exists results,
    Forall2 resolves [game_B; game_A] results /\
    game_ratings scenario_result ≡ₚ results /\
    forall f,
      quiet = Some f ->
      streamed (events (_parse_steam_user_games sample_loads 200 glossary_RATING_DICT
                          (owned [game_B; game_A]) empty_cache quiet_list quiet scenario))
      ≡ₚ game_ratings scenario_result.
Proof.
  assert (NoDup (raw.appid <$> [game_B; game_A])) as Hdistinct.
  { apply NoDup_cons. split; [|apply NoDup_singleton].
    intros Hin. apply list_elem_of_singleton in Hin. discriminate Hin. }
  split; [exact Hdistinct|].
  apply (returned_list_is_streamed sample_loads 200 glossary_RATING_DICT
           (owned [game_B; game_A]) empty_cache quiet_list quiet scenario
           [game_B; game_A] scenario_result).
  - reflexivity.
  - exact Hdistinct.
  - vm_compute. reflexivity.
Defined.

Lemma requests_bounded_witness :
  length (requests (events (_parse_steam_user_games sample_loads 200 glossary_RATING_DICT
                              (owned [game_B; game_A]) cache_with_A None None mixed)))
  = 2%nat /\
  filter (fun game => cache_hit cache_with_A game = false) [game_B; game_A] = [game_B] /\
  (length (requests (events (_parse_steam_user_games sample_loads 200 glossary_RATING_DICT
                               (owned [game_B; game_A]) cache_with_A None None mixed)))
   <= 2 * length (filter (fun game => cache_hit cache_with_A game = false)
                         [game_B; game_A]))%nat.
Proof.
  split_and!; [vm_compute; reflexivity|vm_compute; reflexivity|].
  apply (requests_bounded sample_loads 200 glossary_RATING_DICT
           (owned [game_B; game_A]) cache_with_A None None mixed [game_B; game_A]).
  reflexivity.
Defined.

Lemma cache_written_once_witness :
  cache_updates (events (_parse_steam_user_games sample_loads 200 glossary_RATING_DICT
                           (owned [game_B; game_A]) empty_cache quiet_list quiet scenario))
  = [Game_list (game_ratings scenario_result)] /\
  exists tr,
    events (_parse_steam_user_games sample_loads 200 glossary_RATING_DICT
              (owned [game_B; game_A]) empty_cache quiet_list quiet scenario)
    = tr ++ [Cache_updated (Game_list (game_ratings scenario_result))] /\
    cache_updates tr = [].
Proof.
  split; [vm_compute; reflexivity|].
  destruct (cache_written_once sample_loads 200 glossary_RATING_DICT
              (owned [game_B; game_A]) empty_cache quiet_list quiet scenario)
    as (_ & _ & Hlast).
  apply Hlast. vm_compute. reflexivity.
Defined.

Lemma empty_library_witness :
  let batch_run :=
    _parse_steam_user_games sample_loads 200 glossary_RATING_DICT
      (owned []) empty_cache quiet_list quiet [Next] in
  result_of batch_run = Raised ZeroDivisionError /\
  requests (events batch_run) = [] /\
  streamed (events batch_run) = [] /\
  cache_updates (events batch_run) = [Game_list []].
Proof.
  apply (empty_library sample_loads 200 glossary_RATING_DICT
           (owned []) empty_cache quiet_list quiet [Next]).
  - reflexivity.
  - intros f [= <-]. reflexivity.
Defined.

Lemma copy_without_cached_witness :
  filter (fun g => cached cache_with_A g = false) [game_B_gold; game_A_gold]
  = [game_B_gold] /\
  game_ratings_copy cache_with_A [game_B_gold; game_A_gold]
  = Ok (filter (fun g => cached cache_with_A g = false) [game_B_gold; game_A_gold]).
Proof.
  split; [vm_compute; reflexivity|].
  apply (copy_without_cached cache_with_A [game_B_gold; game_A_gold]).
  repeat constructor; eexists; reflexivity.
Defined.


Lemma deserialize_keeps_steam_entries_witness :
  deserialize sample_statuses sample_anti_cheat_list
  = Ok [{| anticheat.app_id := JStr "10"; anticheat.status := "Supported" |};
        {| anticheat.app_id := JStr "30"; anticheat.status := "Denied" |}] /\
  length (filter (fun game => has_steam game = true) sample_anti_cheat_list) = 2%nat /\
  Forall2 (fun game record =>
             exists store_ids,
               py_getitem game "storeIds" = Ok store_ids /\
               py_getitem store_ids "steam" = Ok (anticheat.app_id record) /\
               py_getitem game "status" = Ok (JStr (anticheat.status record)) /\
               anticheat.status record ∈ sample_statuses)
          (filter (fun game => has_steam game = true) sample_anti_cheat_list)
          [{| anticheat.app_id := JStr "10"; anticheat.status := "Supported" |};
           {| anticheat.app_id := JStr "30"; anticheat.status := "Denied" |}].
Proof.
  split_and!; [vm_compute; reflexivity|vm_compute; reflexivity|].
  apply (deserialize_keeps_steam_entries sample_statuses sample_anti_cheat_list).
  vm_compute. reflexivity.
Defined.

Lemma anti_cheat_failure_leaves_cache_witness :
  has_anticheat_cache empty_cache = false /\
  replay (get_anti_cheat_data steam_loads 200 sample_statuses empty_cache)
         [Err (ClientError "timeout")]
  = Some (Err (ClientError "timeout")) /\
  replay (get_anti_cheat_data steam_loads 200 sample_statuses empty_cache)
         [answer 200 "tier gold"]
  = Some (Err TypeError) /\
  replay (get_anti_cheat_data steam_loads 200 sample_statuses empty_cache)
         [answer 200 "unknown status"]
  = Some (Err ValueError) /\
  updates (get_anti_cheat_data steam_loads 200 sample_statuses empty_cache)
          [answer 200 "unknown status"]
  = [] /\
  calls (get_anti_cheat_data steam_loads 200 sample_statuses empty_cache)
        [answer 200 "unknown status"]
  = [anti_cheat_url].
Proof.
  assert (has_anticheat_cache empty_cache = false) as Hstale by reflexivity.
  destruct (anti_cheat_failure_leaves_cache steam_loads 200 sample_statuses empty_cache
              [Err (ClientError "timeout")] Hstale) as (Htransport & _).
  destruct (anti_cheat_failure_leaves_cache steam_loads 200 sample_statuses empty_cache
              [answer 200 "tier gold"] Hstale) as (_ & Hentries & Hlist & _).
  destruct (anti_cheat_failure_leaves_cache steam_loads 200 sample_statuses empty_cache
              [answer 200 "unknown status"] Hstale) as (_ & Hstatus & Hunknown & Hclean).
  assert (replay (get_anti_cheat_data steam_loads 200 sample_statuses empty_cache)
                 [answer 200 "unknown status"]
          = Some (Err ValueError)) as Hraised.
  { destruct (Hstatus _ _ _ eq_refl eq_refl eq_refl) as [_ Hdeserialize].
    apply (Hdeserialize _ ValueError eq_refl).
    destruct (Hunknown [] (JDict [("storeIds", JDict [("steam", JStr "10")]);
                                  ("status", JStr "Planned")]) [] [] eq_refl)
      as [_ Hentry].
    destruct (Hentry _ _ eq_refl eq_refl eq_refl) as [_ Hvalue].
    apply (Hvalue "Planned" eq_refl).
    intros Hin. apply list_elem_of_In in Hin. simpl in Hin.
    destruct Hin as [Hin|[Hin|[]]]; discriminate Hin. }
  split_and!; [exact Hstale| | |exact Hraised|..].
  - exact (Htransport _ _ eq_refl).
  - destruct (Hentries _ _ _ eq_refl eq_refl eq_refl) as [_ Hdeserialize].
    apply (Hdeserialize _ TypeError eq_refl).
    destruct (Hlist [] (JStr "tier") [] [] eq_refl) as [Hids _].
    exact (Hids TypeError eq_refl).
  - exact (proj1 (Hclean _ Hraised)).
  - exact (proj2 (Hclean _ Hraised)).
Defined.

Lemma vanity_resolution_witness :
  replay (resolve_vanity_name steam_loads 403 "key" "gaben") [answer 403 "resolved"]
  = Some (Ok (Raises UnauthorizedError)) /\
  replay (resolve_vanity_name steam_loads 403 "key" "gaben") [answer 500 "resolved"]
  = Some (Ok (Gives (JStr "76561198000000001"))) /\
  replay (resolve_vanity_name steam_loads 403 "key" "gaben") [answer 200 "no match"]
  = Some (Ok (Raises InvalidIDError)) /\
  replay (resolve_vanity_name steam_loads 403 "key" "gaben") [answer 200 "tier gold"]
  = Some (Ok (Raises InvalidIDError)).
Proof.
  split_and!.
  - destruct (vanity_resolution steam_loads 403 "key" "gaben"
                {| data := "resolved"; status := 403 |} []) as (_ & Hforbidden & _).
    exact (Hforbidden eq_refl).
  - destruct (vanity_resolution steam_loads 403 "key" "gaben"
                {| data := "resolved"; status := 500 |} []) as (_ & _ & Hbody).
    destruct (Hbody ltac:(simpl; lia) _ eq_refl) as [_ Hresponse].
    destruct (Hresponse _ _ eq_refl eq_refl) as [_ Hfound].
    exact (Hfound eq_refl _ eq_refl).
  - destruct (vanity_resolution steam_loads 403 "key" "gaben"
                {| data := "no match"; status := 200 |} []) as (_ & _ & Hbody).
    destruct (Hbody ltac:(simpl; lia) _ eq_refl) as [_ Hresponse].
    destruct (Hresponse _ _ eq_refl eq_refl) as [Hnone _].
    exact (Hnone eq_refl).
  - destruct (vanity_resolution steam_loads 403 "key" "gaben"
                {| data := "tier gold"; status := 200 |} []) as (_ & _ & Hbody).
    destruct (Hbody ltac:(simpl; lia) _ eq_refl) as [Habsent _].
    exact (Habsent eq_refl).
Defined.



Lemma owned_games_answer_witness :
  get_steam_user_data steam_loads 200 glossary_RATING_DICT 403 400 401 17
    sample_repr sample_user_data "key" "76561198000000001" empty_cache quiet_list quiet
    [answer 400 "library"] scenario
  = Raised_vapor InvalidIDError /\
  get_steam_user_data steam_loads 200 glossary_RATING_DICT 403 400 401 17
    sample_repr sample_user_data "key" "gaben" empty_cache quiet_list quiet
    [answer 200 "resolved"; answer 401 "library"] scenario
  = Raised_vapor UnauthorizedError /\
  get_steam_user_data steam_loads 200 glossary_RATING_DICT 403 400 401 17
    sample_repr sample_user_data "key" "gaben" empty_cache quiet_list quiet
    [answer 200 "no match"; answer 200 "library"] scenario
  = Batch (_parse_steam_user_games steam_loads 200 glossary_RATING_DICT
             (owned [game_B; game_A]) empty_cache quiet_list quiet scenario).
Proof.
  split_and!.
  - destruct (owned_games_answer steam_loads 200 glossary_RATING_DICT 403 400 401 17
                sample_repr sample_user_data "key" "76561198000000001" empty_cache
                quiet_list quiet [answer 400 "library"] scenario
                "76561198000000001" {| data := "library"; status := 400 |} [])
      as (Hbad & _); [reflexivity|reflexivity|].
    exact (Hbad eq_refl).
  - destruct (owned_games_answer steam_loads 200 glossary_RATING_DICT 403 400 401 17
                sample_repr sample_user_data "key" "gaben" empty_cache
                quiet_list quiet [answer 200 "resolved"; answer 401 "library"] scenario
                "76561198000000001" {| data := "library"; status := 401 |} [])
      as (_ & Hunauthorized & _); [vm_compute; reflexivity|vm_compute; reflexivity|].
    apply Hunauthorized; [simpl; lia|reflexivity].
  - destruct (owned_games_answer steam_loads 200 glossary_RATING_DICT 403 400 401 17
                sample_repr sample_user_data "key" "gaben" empty_cache
                quiet_list quiet [answer 200 "no match"; answer 200 "library"] scenario
                "gaben" {| data := "library"; status := 200 |} [])
      as (_ & _ & Hbatch); [vm_compute; reflexivity|vm_compute; reflexivity|].
    destruct (Hbatch ltac:(simpl; lia) ltac:(simpl; lia)) as [_ Hpayload].
    exact (Hpayload _ eq_refl).
Defined.


Lemma callback_failure_ends_batch_witness :
  let batch_run :=
    _parse_steam_user_games sample_loads 200 glossary_RATING_DICT
      (owned [game_B; game_A]) empty_cache quiet_list (Some refuses_A) late_answer in
  events batch_run
  = take 4 (events batch_run)
    ++ On_game_updated game_A_gold :: [Request 0 (protondb_url "20")] /\
  refuses_A game_A_gold = Err ValueError /\
  result_of batch_run = Raised ValueError /\
  (refuses_A game_A_gold = Ok () \/
   exists e, refuses_A game_A_gold = Err e /\
             result_of batch_run = Raised (leaving e) /\
             Forall (fun ev => is_request ev = true) [Request 0 (protondb_url "20")]).
Proof.
  intros batch_run.
  assert (events batch_run
          = take 4 (events batch_run)
            ++ On_game_updated game_A_gold :: [Request 0 (protondb_url "20")]) as Hlast
    by (vm_compute; reflexivity).
  split_and!; [exact Hlast|reflexivity|vm_compute; reflexivity|].
  destruct (callback_failure_ends_batch sample_loads 200 glossary_RATING_DICT
              (owned [game_B; game_A]) empty_cache quiet_list refuses_A late_answer
              (take 4 (events batch_run)) [Request 0 (protondb_url "20")])
    as [Hgame _].
  exact (Hgame game_A_gold Hlast).
Defined.
